(** * A shallow embedding of the to-do list application (todoapp.js)

    The program is a single script: a module-level array [tasks], a slot of
    the browser's [localStorage] that holds its JSON text, and a handful of
    event handlers that change the array, save it and redraw the page.

    The embedding follows that shape.
    - A JavaScript string is the list of its UTF-16 code units.
    - [JSON.stringify] and [JSON.parse] are written out over those lists.
    - The script's mutable state is a record [World]; every function of the
      script is a computation over it that either completes normally or
      throws.
    - The clock, the random generator, the text fields and the answers to
      [confirm] are inputs of the handlers. *)

From Stdlib Require Import ZArith NArith Ascii String List Lia Permutation.
From stdpp Require Import base option list gmap.

Set Warnings "-register-all".

Open Scope N_scope.

(** ** JavaScript strings *)

(** A string value: its UTF-16 code units, in order. *)
Abbreviation jsstring := (list N).

(** A literal of the source, written as a Rocq string of ASCII characters. *)
Definition js (s : string) : jsstring :=
  List.map N_of_ascii (list_ascii_of_string s).

(** [WhiteSpace] and [LineTerminator] of ECMAScript: what [trim] strips. *)
Definition is_space (c : N) : bool :=
  (c =? 9) || (c =? 10) || (c =? 11) || (c =? 12) || (c =? 13) || (c =? 32)
  || (c =? 160) || (c =? 5760) || ((8192 <=? c) && (c <=? 8202))
  || (c =? 8232) || (c =? 8233) || (c =? 8239) || (c =? 8287)
  || (c =? 12288) || (c =? 65279).

Fixpoint trimStart (s : jsstring) : jsstring :=
  match s with
  | c :: r => if is_space c then trimStart r else s
  | [] => []
  end.

Definition trimEnd (s : jsstring) : jsstring := reverse (trimStart (reverse s)).

(** [String.prototype.trim]. *)
Definition trim (s : jsstring) : jsstring := trimEnd (trimStart s).

(** [String.prototype.slice(start, end)]: a negative index counts from the
    end, and both indices are clamped to the string. *)
Definition slice_index (len i : Z) : Z :=
  if (i <? 0)%Z then Z.max (len + i) 0 else Z.min i len.

Definition slice (first : Z) (last : option Z) (s : jsstring) : jsstring :=
  let len := Z.of_nat (length s) in
  let from := slice_index len first in
  let to := match last with Some e => slice_index len e | None => len end in
  take (Z.to_nat (to - from)) (drop (Z.to_nat from) s).

(** ** Numbers as text *)

(** The digit characters [0-9a-z] of [Number.prototype.toString(radix)]. *)
Definition digit_char (d : N) : N := if d <? 10 then 48 + d else 87 + d.

Fixpoint digits_fuel (fuel : nat) (radix n : N) (acc : jsstring) : jsstring :=
  match fuel with
  | O => acc
  | S fuel' =>
      let acc' := digit_char (n mod radix) :: acc in
      if n <? radix then acc' else digits_fuel fuel' radix (n / radix) acc'
  end.

(** The digits of [n] in the given radix, most significant first. A radix of
    at least two halves the number at each step, so as many steps as [n] has
    bits are enough. *)
Definition digits (radix n : N) : jsstring :=
  digits_fuel (S (N.to_nat (N.size n))) radix n [].

(** [Number.prototype.toString(radix)] on an integer. The numbers of this
    program are clock readings and counts: integers far below 2^53, which a
    JavaScript number holds exactly and prints without an exponent. *)
Definition Number_toString (radix : N) (z : Z) : jsstring :=
  if (z <? 0)%Z then 45 :: digits radix (Z.abs_N z) else digits radix (Z.abs_N z).

(** ** JSON values *)

(** What [JSON.parse] can return. An object keeps its members in order. A
    number literal without fraction and exponent is the integer it denotes;
    one with a fraction or an exponent is kept as its text, since its
    floating-point value plays no part in this program. *)
Inductive json : Type :=
| JNull
| JBool (b : bool)
| JNum (z : Z)
| JFloat (lit : jsstring)
| JStr (s : jsstring)
| JArr (l : list json)
| JObj (m : list (jsstring * json)).

(** ** Completions *)

(** How an evaluation ends: normally with a value, or by throwing. A thrown
    error is identified by its name. *)
Inductive completion (A : Type) : Type :=
| Normal (a : A)
| Throw (name : string).
Arguments Normal {A} a.
Arguments Throw {A} name.

(** ** JSON.stringify *)

(** [\uXXXX], with lowercase hexadecimal digits. *)
Definition unicode_escape (c : N) : jsstring :=
  [92; 117; digit_char (c / 4096 mod 16); digit_char (c / 256 mod 16);
   digit_char (c / 16 mod 16); digit_char (c mod 16)].

Definition is_leading_surrogate (c : N) : bool := (55296 <=? c) && (c <=? 56319).
Definition is_trailing_surrogate (c : N) : bool := (56320 <=? c) && (c <=? 57343).

(** One code unit of a quoted string. The short escapes, then the control
    characters, then the surrogates: a surrogate is written as it is when it
    is half of a pair (a leading one directly followed by a trailing one) and
    escaped when it stands alone. *)
Definition quote_unit (after_leading : bool) (c : N) (next : option N) : jsstring :=
  if c =? 8 then [92; 98]
  else if c =? 9 then [92; 116]
  else if c =? 10 then [92; 110]
  else if c =? 12 then [92; 102]
  else if c =? 13 then [92; 114]
  else if c =? 34 then [92; 34]
  else if c =? 92 then [92; 92]
  else if c <? 32 then unicode_escape c
  else if is_leading_surrogate c then
    match next with
    | Some d => if is_trailing_surrogate d then [c] else unicode_escape c
    | None => unicode_escape c
    end
  else if is_trailing_surrogate c then
    if after_leading then [c] else unicode_escape c
  else [c].

Fixpoint quote_units (after_leading : bool) (s : jsstring) : jsstring :=
  match s with
  | [] => []
  | c :: r => quote_unit after_leading c (head r) ++ quote_units (is_leading_surrogate c) r
  end.

(** [QuoteJSONString] of ECMA-262. *)
Definition QuoteJSONString (s : jsstring) : jsstring :=
  34 :: quote_units false s ++ [34].

Definition join_comma (l : list jsstring) : jsstring :=
  match l with
  | [] => []
  | x :: r => x ++ concat (List.map (cons 44) r)
  end.

(** [JSON.stringify(value)] without indentation: no white space is written. *)
Fixpoint JSON_stringify (v : json) : jsstring :=
  match v with
  | JNull => js "null"
  | JBool b => if b then js "true" else js "false"
  | JNum z => Number_toString 10 z
  | JFloat lit => lit
  | JStr s => QuoteJSONString s
  | JArr l => 91 :: join_comma (List.map JSON_stringify l) ++ [93]
  | JObj m =>
      123 :: join_comma (List.map (fun kv => QuoteJSONString (fst kv) ++ 58 :: JSON_stringify (snd kv)) m)
          ++ [125]
  end.

(** ** JSON.parse *)

Definition is_ws (c : N) : bool := (c =? 9) || (c =? 10) || (c =? 13) || (c =? 32).

Fixpoint skip_ws (s : jsstring) : jsstring :=
  match s with
  | c :: r => if is_ws c then skip_ws r else s
  | [] => []
  end.

Definition is_digit (c : N) : bool := (48 <=? c) && (c <=? 57).

Fixpoint span_digits (s : jsstring) : jsstring * jsstring :=
  match s with
  | c :: r => if is_digit c then let '(d, r') := span_digits r in (c :: d, r') else ([], s)
  | [] => ([], [])
  end.

Definition digits_value (ds : jsstring) : N :=
  fold_left (fun a c => 10 * a + (c - 48)) ds 0.

(** The integer part: a single [0], or a non-zero digit and more digits. *)
Definition read_int (s : jsstring) : option (jsstring * jsstring) :=
  match s with
  | c :: r =>
      if c =? 48 then Some ([c], r)
      else if is_digit c then let '(d, r') := span_digits r in Some (c :: d, r')
      else None
  | [] => None
  end.

(** An optional fraction: a dot and at least one digit. *)
Definition read_frac (s : jsstring) : option (jsstring * jsstring) :=
  match s with
  | c :: r =>
      if c =? 46 then
        match span_digits r with
        | ([], _) => None
        | (d, r') => Some (c :: d, r')
        end
      else Some ([], s)
  | [] => Some ([], s)
  end.

(** An optional exponent: [e] or [E], an optional sign, at least one digit. *)
Definition read_exp (s : jsstring) : option (jsstring * jsstring) :=
  match s with
  | c :: r =>
      if (c =? 101) || (c =? 69) then
        let '(sign, r1) :=
          match r with
          | c' :: r' => if (c' =? 43) || (c' =? 45) then ([c'], r') else ([], r)
          | [] => ([], r)
          end in
        match span_digits r1 with
        | ([], _) => None
        | (d, r2) => Some (c :: sign ++ d, r2)
        end
      else Some ([], s)
  | [] => Some ([], s)
  end.

Definition read_number (s : jsstring) : option (json * jsstring) :=
  let '(neg, s1) :=
    match s with
    | c :: r => if c =? 45 then (true, r) else (false, s)
    | [] => (false, s)
    end in
  '(i, s2) ← read_int s1;
  '(f, s3) ← read_frac s2;
  '(e, s4) ← read_exp s3;
  match f, e with
  | [], [] =>
      let n := Z.of_N (digits_value i) in
      Some (JNum (if neg then (- n)%Z else n), s4)
  | _, _ => Some (JFloat ((if neg then [45] else []) ++ i ++ f ++ e), s4)
  end.

Definition hex_value (c : N) : option N :=
  if is_digit c then Some (c - 48)
  else if (97 <=? c) && (c <=? 102) then Some (c - 87)
  else if (65 <=? c) && (c <=? 70) then Some (c - 55)
  else None.

(** The character a one-letter escape stands for. *)
Definition unescape (e : N) : option N :=
  if e =? 34 then Some 34
  else if e =? 92 then Some 92
  else if e =? 47 then Some 47
  else if e =? 98 then Some 8
  else if e =? 102 then Some 12
  else if e =? 110 then Some 10
  else if e =? 114 then Some 13
  else if e =? 116 then Some 9
  else None.

(** The characters of a string literal, from just after its opening quote up
    to and including its closing quote. *)
Fixpoint read_string (s : jsstring) : option (jsstring * jsstring) :=
  match s with
  | [] => None
  | c :: r =>
      if c =? 34 then Some ([], r)
      else if c =? 92 then
        match r with
        | [] => None
        | e :: r1 =>
            if e =? 117 then
              match r1 with
              | h1 :: h2 :: h3 :: h4 :: r2 =>
                  a ← hex_value h1; b ← hex_value h2;
                  c' ← hex_value h3; d ← hex_value h4;
                  '(str, rest) ← read_string r2;
                  Some ((4096 * a + 256 * b + 16 * c' + d) :: str, rest)
              | _ => None
              end
            else
              u ← unescape e;
              '(str, rest) ← read_string r1;
              Some (u :: str, rest)
        end
      else if c <? 32 then None
      else '(str, rest) ← read_string r; Some (c :: str, rest)
  end.

Fixpoint strip_prefix (p s : jsstring) : option jsstring :=
  match p, s with
  | [], _ => Some s
  | a :: p', b :: s' => if a =? b then strip_prefix p' s' else None
  | _ :: _, [] => None
  end.

(** Setting a property: a key already there keeps its place and takes the new
    value, a new key goes last. *)
Fixpoint obj_set (k : jsstring) (v : json) (m : list (jsstring * json)) : list (jsstring * json) :=
  match m with
  | [] => [(k, v)]
  | (k', v') :: m' =>
      if bool_decide (k' = k) then (k, v) :: m' else (k', v') :: obj_set k v m'
  end.

(** The object built from the members of an object literal, read left to
    right: of a repeated key the last value stays. (JavaScript moreover lists
    keys that are array indices before the others; the objects of this
    program have none.) *)
Definition make_object (members : list (jsstring * json)) : list (jsstring * json) :=
  fold_left (fun m kv => obj_set (fst kv) (snd kv) m) members [].

(** The recursive descent over a JSON text. Every call spends one unit of
    fuel and every nested value or further element is at least one character
    further into the text, so the length of the text is enough fuel. *)
Fixpoint parse_value (fuel : nat) (s : jsstring) {struct fuel} : option (json * jsstring) :=
  match fuel with
  | O => None
  | S n =>
      match skip_ws s with
      | [] => None
      | c :: r =>
          if c =? 123 then
            match skip_ws r with
            | [] => None
            | c' :: r' =>
                if c' =? 125 then Some (JObj [], r')
                else '(m, r'') ← parse_members n (c' :: r'); Some (JObj (make_object m), r'')
            end
          else if c =? 91 then
            match skip_ws r with
            | [] => None
            | c' :: r' =>
                if c' =? 93 then Some (JArr [], r')
                else '(l, r'') ← parse_elements n (c' :: r'); Some (JArr l, r'')
            end
          else if c =? 34 then '(str, r') ← read_string r; Some (JStr str, r')
          else if c =? 116 then r' ← strip_prefix (js "rue") r; Some (JBool true, r')
          else if c =? 102 then r' ← strip_prefix (js "alse") r; Some (JBool false, r')
          else if c =? 110 then r' ← strip_prefix (js "ull") r; Some (JNull, r')
          else read_number (c :: r)
      end
  end
with parse_elements (fuel : nat) (s : jsstring) {struct fuel} : option (list json * jsstring) :=
  match fuel with
  | O => None
  | S n =>
      '(v, r) ← parse_value n s;
      match skip_ws r with
      | [] => None
      | c :: r' =>
          if c =? 44 then '(l, r'') ← parse_elements n r'; Some (v :: l, r'')
          else if c =? 93 then Some ([v], r')
          else None
      end
  end
with parse_members (fuel : nat) (s : jsstring) {struct fuel}
  : option (list (jsstring * json) * jsstring) :=
  match fuel with
  | O => None
  | S n =>
      match skip_ws s with
      | [] => None
      | q :: r0 =>
          if q =? 34 then
            '(k, r1) ← read_string r0;
            match skip_ws r1 with
            | [] => None
            | c1 :: r2 =>
                if c1 =? 58 then
                  '(v, r3) ← parse_value n r2;
                  match skip_ws r3 with
                  | [] => None
                  | c3 :: r4 =>
                      if c3 =? 44 then '(m, r5) ← parse_members n r4; Some ((k, v) :: m, r5)
                      else if c3 =? 125 then Some ([(k, v)], r4)
                      else None
                  end
                else None
            end
          else None
      end
  end.

(** [JSON.parse(text)]: one value, white space around it, nothing else; a
    text that is not of that form is a [SyntaxError]. *)
Definition JSON_parse (text : jsstring) : completion json :=
  match parse_value (S (length text)) text with
  | Some (v, r) =>
      match skip_ws r with
      | [] => Normal v
      | _ :: _ => Throw "SyntaxError"
      end
  | None => Throw "SyntaxError"
  end.

(** ** Tasks *)

(** An element of [tasks], as the type comment of the script declares it:
    [{id: string, text: string, createdAt: number, completed: boolean,
    completedAt: number|null}]. The two numbers are readings of [Date.now()],
    integers; [null] is [None]. *)
Record Task : Type := mkTask {
  id : jsstring;
  text : jsstring;
  createdAt : Z;
  completed : bool;
  completedAt : option Z
}.

(** The second argument of [updateTask]: an object with any of the keys
    [text], [completed] and [completedAt]. A key that is absent is [None];
    [completedAt: null] is [Some None]. *)
Record Patch : Type := mkPatch {
  p_text : option jsstring;
  p_completed : option bool;
  p_completedAt : option (option Z)
}.

(** [{ ...task, ...patch }] *)
Definition spread (t : Task) (p : Patch) : Task :=
  {| id := id t;
     text := default (text t) (p_text p);
     createdAt := createdAt t;
     completed := default (completed t) (p_completed p);
     completedAt := default (completedAt t) (p_completedAt p) |}.

(** [Array.prototype.findIndex]: the first index whose element passes the
    test, or [-1]. *)
Fixpoint findIndex {A : Type} (test : A -> bool) (l : list A) : Z :=
  match l with
  | [] => (-1)%Z
  | x :: r =>
      if test x then 0%Z
      else let i := findIndex test r in if (i =? -1)%Z then (-1)%Z else (i + 1)%Z
  end.

(** The JSON value of a task: the keys in the order of the object literal
    that creates it, which spreading a patch over it keeps. *)
Definition json_of_task (t : Task) : json :=
  JObj [(js "id", JStr (id t));
        (js "text", JStr (text t));
        (js "createdAt", JNum (createdAt t));
        (js "completed", JBool (completed t));
        (js "completedAt", match completedAt t with Some z => JNum z | None => JNull end)].

Definition json_of_tasks (ts : list Task) : json := JArr (List.map json_of_task ts).

(** The typed reading of a loaded value: the task whose JSON value it is, if
    it is one. *)
Definition task_of_json (v : json) : option Task :=
  match v with
  | JObj [(k1, JStr i); (k2, JStr x); (k3, JNum c); (k4, JBool b); (k5, a)] =>
      if bool_decide (k1 = js "id") && bool_decide (k2 = js "text")
         && bool_decide (k3 = js "createdAt") && bool_decide (k4 = js "completed")
         && bool_decide (k5 = js "completedAt")
      then
        match a with
        | JNum z => Some (mkTask i x c b (Some z))
        | JNull => Some (mkTask i x c b None)
        | _ => None
        end
      else None
  | _ => None
  end.

Definition tasks_of_json (v : json) : option (list Task) :=
  match v with
  | JArr l => mapM task_of_json l
  | _ => None
  end.

(** ** The state of the page *)

(** The elements of the page that the script writes to: the value of the
    text field, the children of the two lists, the [style.display] of the two
    placeholders and the [textContent] of the counters. A rendered list item
    is identified with the task it shows. *)
Record Dom : Type := mkDom {
  inputValue : jsstring;
  pendingList : list Task;
  completedList : list Task;
  emptyPending : jsstring;
  emptyCompleted : jsstring;
  countTotal : jsstring;
  countPending : jsstring;
  countCompleted : jsstring;
  badgePending : jsstring;
  badgeCompleted : jsstring
}.

Record World : Type := mkWorld {
  tasks : list Task;
  localStorage : gmap jsstring jsstring;
  dom : Dom;
  alerts : list jsstring
}.

Definition STORAGE_KEY : jsstring := js "todo.tasks.v1".

(** ** Computations over the state *)

(** A statement or call of the script: from a state, to a completion and the
    state it leaves behind (a throw keeps what was written before it). *)
Definition M (A : Type) : Type := World -> completion A * World.

#[global] Instance M_ret : MRet M := fun A a w => (Normal a, w).
#[global] Instance M_bind : MBind M := fun A B k m w =>
  match m w with
  | (Normal a, w') => k a w'
  | (Throw e, w') => (Throw e, w')
  end.

(** [try { body } catch { handler }] *)
Definition try_catch {A : Type} (body handler : M A) : M A := fun w =>
  match body w with
  | (Normal a, w') => (Normal a, w')
  | (Throw _, w') => handler w'
  end.

(** A call of a function that touches no state. *)
Definition pure {A : Type} (c : completion A) : M A := fun w => (c, w).

Definition get_tasks : M (list Task) := fun w => (Normal (tasks w), w).
Definition set_tasks (ts : list Task) : M unit := fun w =>
  (Normal tt, mkWorld ts (localStorage w) (dom w) (alerts w)).
Definition get_dom : M Dom := fun w => (Normal (dom w), w).
Definition set_dom (d : Dom) : M unit := fun w =>
  (Normal tt, mkWorld (tasks w) (localStorage w) d (alerts w)).

(** [localStorage.getItem(key)]: the stored string, or [null]. *)
Definition getItem (key : jsstring) : M (option jsstring) := fun w =>
  (Normal (localStorage w !! key), w).

(** [localStorage.setItem(key, value)]; the storage is taken to have room. *)
Definition setItem (key value : jsstring) : M unit := fun w =>
  (Normal tt, mkWorld (tasks w) (<[key := value]> (localStorage w)) (dom w) (alerts w)).

(** [alert(message)] *)
Definition alert (message : jsstring) : M unit := fun w =>
  (Normal tt, mkWorld (tasks w) (localStorage w) (dom w) (alerts w ++ [message])).

(** ** The script *)

(** [raw ? JSON.parse(raw) : []] inside [try], and [[]] in [catch]; the empty
    string is falsy, as [null] is. What is returned is whatever value the
    text denotes. *)
Definition loadTasks : M json :=
  try_catch
    (raw ← getItem STORAGE_KEY;
     match raw with
     | Some (c :: r) => pure (JSON_parse (c :: r))
     | Some [] | None => mret (JArr [])
     end)
    (mret (JArr [])).

(** [tasks.filter(t => !t.completed)] and [tasks.filter(t => t.completed)] *)
Definition pending (ts : list Task) : list Task :=
  List.filter (fun t => negb (completed t)) ts.
Definition completed_tasks (ts : list Task) : list Task :=
  List.filter (fun t => completed t) ts.

(** The three numbers that [updateCounts] shows. *)
Record Counts : Type := mkCounts { total : Z; n_pending : Z; n_completed : Z }.

Definition counts (ts : list Task) : Counts :=
  let total := Z.of_nat (length ts) in
  let pending := Z.of_nat (length (List.filter (fun t => negb (completed t)) ts)) in
  let completed := (total - pending)%Z in
  mkCounts total pending completed.

Definition updateCounts : M unit :=
  ts ← get_tasks;
  d ← get_dom;
  let c := counts ts in
  set_dom {| inputValue := inputValue d;
             pendingList := pendingList d;
             completedList := completedList d;
             emptyPending := emptyPending d;
             emptyCompleted := emptyCompleted d;
             countTotal := Number_toString 10 (total c);
             countPending := Number_toString 10 (n_pending c);
             countCompleted := Number_toString 10 (n_completed c);
             badgePending := Number_toString 10 (n_pending c);
             badgeCompleted := Number_toString 10 (n_completed c) |}.

Definition saveTasks : M unit :=
  ts ← get_tasks;
  setItem STORAGE_KEY (JSON_stringify (json_of_tasks ts));;
  updateCounts.

(** [Math.random().toString(36).slice(2, 10) + Date.now().toString(36).slice(-4)],
    given the text [random36] of the random number in base 36 and the clock. *)
Definition uid (random36 : jsstring) (now : Z) : jsstring :=
  slice 2 (Some 10%Z) random36 ++ slice (-4) None (Number_toString 36 now).

Definition render : M unit :=
  ts ← get_tasks;
  d ← get_dom;
  let pending := pending ts in
  let completed := completed_tasks ts in
  set_dom {| inputValue := inputValue d;
             pendingList := pending;
             completedList := completed;
             emptyPending := if (0 <? length pending)%nat then js "none" else js "block";
             emptyCompleted := if (0 <? length completed)%nat then js "none" else js "block";
             countTotal := countTotal d;
             countPending := countPending d;
             countCompleted := countCompleted d;
             badgePending := badgePending d;
             badgeCompleted := badgeCompleted d |};;
  updateCounts.

(** [tasks[idx] = { ...tasks[idx], ...patch }] happens at an index that
    [findIndex] returned, hence inside the array. *)
Definition updateTask (id0 : jsstring) (patch : Patch) : M unit :=
  ts ← get_tasks;
  let idx := findIndex (fun t => bool_decide (id t = id0)) ts in
  if (idx =? -1)%Z then mret tt
  else
    set_tasks (alter (fun t => spread t patch) (Z.to_nat idx) ts);;
    saveTasks;;
    render.

(** The [change] handler of an item's checkbox; [checked] is the state of the
    box and [now] the clock. *)
Definition toggle (id0 : jsstring) (checked : bool) (now : Z) : M unit :=
  updateTask id0 {| p_text := None;
                    p_completed := Some checked;
                    p_completedAt := Some (if checked then Some now else None) |}.

(** [commitEdit(li, id)]; [value] is the content of the edit field of the
    item [li]. (The class that the last line takes off [li] is not part of
    the state: [updateTask] has redrawn the lists by then.) *)
Definition commitEdit (value : jsstring) (id0 : jsstring) : M unit :=
  let newText := trim value in
  match newText with
  | [] => alert (js "Task cannot be empty.")
  | _ :: _ =>
      updateTask id0 {| p_text := Some newText; p_completed := None; p_completedAt := None |}
  end.

(** The [click] handler of an item's delete button; [confirmed] is the answer
    to [confirm('Delete this task?')]. *)
Definition delete_click (id0 : jsstring) (confirmed : bool) : M unit :=
  if confirmed then
    ts ← get_tasks;
    set_tasks (List.filter (fun t => negb (bool_decide (id t = id0))) ts);;
    saveTasks;;
    render
  else mret tt.

(** The [submit] handler of the form. [now] is [Date.now()] of the handler,
    [random36] and [now_uid] are what [uid()] reads. *)
Definition submit (now : Z) (random36 : jsstring) (now_uid : Z) : M unit :=
  d ← get_dom;
  let text := trim (inputValue d) in
  match text with
  | [] => mret tt
  | _ :: _ =>
      ts ← get_tasks;
      set_tasks ({| id := uid random36 now_uid;
                    text := text;
                    createdAt := now;
                    completed := false;
                    completedAt := None |} :: ts);;
      d ← get_dom;
      set_dom {| inputValue := [];
                 pendingList := pendingList d;
                 completedList := completedList d;
                 emptyPending := emptyPending d;
                 emptyCompleted := emptyCompleted d;
                 countTotal := countTotal d;
                 countPending := countPending d;
                 countCompleted := countCompleted d;
                 badgePending := badgePending d;
                 badgeCompleted := badgeCompleted d |};;
      saveTasks;;
      render
  end.

(** The [click] handler of the clear-all button. *)
Definition clear_all_click (confirmed : bool) : M unit :=
  ts ← get_tasks;
  match ts with
  | [] => mret tt
  | _ :: _ =>
      if confirmed then set_tasks [];; saveTasks;; render else mret tt
  end.

(** The page before the script has run. *)
Definition blank_page : Dom := mkDom [] [] [] [] [] [] [] [] [] [].

(** Loading the page with the given storage: [let tasks = loadTasks()] at the
    top of the script and [render()] at its end. The states of this
    development hold task sequences as the script writes them; the result is
    [None] when the loaded value is not the JSON value of one, and the script
    then goes on with that value in [tasks]. *)
Definition startup (storage : gmap jsstring jsstring) : option World :=
  match loadTasks (mkWorld [] storage blank_page []) with
  | (Normal v, w) =>
      ts ← tasks_of_json v;
      Some (snd ((set_tasks ts;; render) w))
  | (Throw _, _) => None
  end.

(** ** What the user does *)

(** The user's actions on the page, each with what the handler reads from
    the browser while it runs. *)
Inductive event : Type :=
| Submit (value : jsstring) (now : Z) (random36 : jsstring) (now_uid : Z)
| Toggle (id0 : jsstring) (checked : bool) (now : Z)
| CommitEdit (value : jsstring) (id0 : jsstring)
| DeleteClick (id0 : jsstring) (confirmed : bool)
| ClearAllClick (confirmed : bool).

(** Typing into the text field of the form, which the browser does before
    the form is submitted. *)
Definition type_input (value : jsstring) : M unit :=
  d ← get_dom;
  set_dom {| inputValue := value;
             pendingList := pendingList d;
             completedList := completedList d;
             emptyPending := emptyPending d;
             emptyCompleted := emptyCompleted d;
             countTotal := countTotal d;
             countPending := countPending d;
             countCompleted := countCompleted d;
             badgePending := badgePending d;
             badgeCompleted := badgeCompleted d |}.

Definition handle (e : event) : M unit :=
  match e with
  | Submit value now random36 now_uid => type_input value;; submit now random36 now_uid
  | Toggle id0 checked now => toggle id0 checked now
  | CommitEdit value id0 => commitEdit value id0
  | DeleteClick id0 confirmed => delete_click id0 confirmed
  | ClearAllClick confirmed => clear_all_click confirmed
  end.

Fixpoint handle_all (es : list event) : M unit :=
  match es with
  | [] => mret tt
  | e :: es' => handle e;; handle_all es'
  end.

(** ** Predicates of the statements *)

(** [completedAt] is present exactly when [completed] is true. *)
Definition consistent (t : Task) : Prop :=
  is_Some (completedAt t) <-> completed t = true.

#[global] Instance consistent_dec (t : Task) : Decision (consistent t).
Proof. unfold consistent. apply _. Defined.

(** A patch that sets [completed] and [completedAt] together and in
    agreement, or neither of them. *)
Definition coherent (p : Patch) : Prop :=
  match p_completed p, p_completedAt p with
  | None, None => True
  | Some c, Some a => is_Some a <-> c = true
  | _, _ => False
  end.

(** The first task with the given id is [t], at index [i]. *)
Definition first_with_id (id0 : jsstring) (ts : list Task) (i : nat) (t : Task) : Prop :=
  ts !! i = Some t /\ id t = id0 /\
  forall j t', (j < i)%nat -> ts !! j = Some t' -> id t' <> id0.


(** The values whose text [JSON.stringify] writes and [JSON.parse] reads back
    unchanged: integers for numbers, and no key twice in an object. *)
Fixpoint printable (v : json) : bool :=
  match v with
  | JFloat _ => false
  | JArr l => forallb printable l
  | JObj m => bool_decide (NoDup (List.map fst m)) && forallb (fun kv => printable (snd kv)) m
  | _ => true
  end.

Fixpoint json_size (v : json) : nat :=
  match v with
  | JArr l => S (list_sum (List.map (fun v => S (json_size v)) l))
  | JObj m => S (list_sum (List.map (fun kv => S (json_size (snd kv))) m))
  | _ => 1
  end.

(** What can follow a value inside a text: nothing, a comma, or a closing
    bracket or brace. *)
Definition closes (rest : jsstring) : Prop :=
  match rest with
  | [] => True
  | c :: _ => c = 44 \/ c = 93 \/ c = 125
  end.

(** ** Auxiliary notions of the proofs *)

(** Reading one more decimal digit. *)
Definition step10 (a c : N) : N := 10 * a + (c - 48).

(** A character that can start the text of a value. *)
Definition starts_value (c : N) : Prop :=
  is_ws c = false /\ c <> 93 /\ c <> 125.

(** What the round trip says of one value, for every fuel and context. *)
Definition reads_back (v : json) : Prop :=
  printable v = true ->
  forall n rest, (json_size v <= n)%nat -> closes rest ->
    parse_value n (JSON_stringify v ++ rest) = Some (v, rest).

(** ** Sample states *)

Definition milk : Task := mkTask (js "a1") (js "Buy milk") 1000 false None.
Definition dog : Task := mkTask (js "b2") (js "Walk dog") 2000 false None.
Definition sample : World := mkWorld [dog; milk] ∅ blank_page [].

(** The page that an empty storage gives. *)
Definition empty_page : World :=
  mkWorld [] ∅
    (mkDom [] [] [] (js "block") (js "block") (js "0") (js "0") (js "0") (js "0") (js "0")) [].

(** ** Notions of the further properties *)

(** The page shows the current tasks: the two lists, the two placeholders
    (shown when their list is empty) and the five counters. *)
Definition page_shows (w : World) : Prop :=
  let ts := tasks w in
  let d := dom w in
  pendingList d = pending ts /\
  completedList d = completed_tasks ts /\
  emptyPending d = (if (0 <? length (pending ts))%nat then js "none" else js "block") /\
  emptyCompleted d = (if (0 <? length (completed_tasks ts))%nat then js "none" else js "block") /\
  countTotal d = Number_toString 10 (Z.of_nat (length ts)) /\
  countPending d = Number_toString 10 (Z.of_nat (length (pending ts))) /\
  countCompleted d = Number_toString 10 (Z.of_nat (length (completed_tasks ts))) /\
  badgePending d = countPending d /\
  badgeCompleted d = countCompleted d.

(** What an action makes of the task sequence, or [None] when it leaves the
    sequence alone. *)
Definition next_tasks (e : event) (ts : list Task) : option (list Task) :=
  match e with
  | Submit value now random36 now_uid =>
      match trim value with
      | [] => None
      | c :: r => Some (mkTask (uid random36 now_uid) (c :: r) now false None :: ts)
      end
  | Toggle id0 checked now =>
      let idx := findIndex (fun t => bool_decide (id t = id0)) ts in
      if (idx =? -1)%Z then None
      else Some (alter (fun t => spread t (mkPatch None (Some checked)
                                             (Some (if checked then Some now else None))))
                   (Z.to_nat idx) ts)
  | CommitEdit value id0 =>
      match trim value with
      | [] => None
      | c :: r =>
          let idx := findIndex (fun t => bool_decide (id t = id0)) ts in
          if (idx =? -1)%Z then None
          else Some (alter (fun t => spread t (mkPatch (Some (c :: r)) None None))
                       (Z.to_nat idx) ts)
      end
  | DeleteClick id0 confirmed =>
      if confirmed then Some (List.filter (fun t => negb (bool_decide (id t = id0))) ts)
      else None
  | ClearAllClick confirmed =>
      match ts with
      | [] => None
      | _ :: _ => if confirmed then Some [] else None
      end
  end.


(** The text of a task is not empty and has no white space at its ends. *)
Definition tidy (t : Task) : Prop := text t <> [] /\ trim (text t) = text t.

#[global] Instance tidy_dec (t : Task) : Decision (tidy t).
Proof. unfold tidy. apply _. Defined.

(** A task of the earlier sequence has the id and the creation time of [t']. *)
Definition descends (ts : list Task) (t' : Task) : Prop :=
  exists t, t ∈ ts /\ id t = id t' /\ createdAt t = createdAt t'.

(** One of the submissions made [t']: its id is the one generated then and
    its creation time the clock of that submission. *)
Definition born (es : list event) (t' : Task) : Prop :=
  exists value now random36 now_uid,
    Submit value now random36 now_uid ∈ es /\
    id t' = uid random36 now_uid /\ createdAt t' = now.

(** Whether an action can put a second task with an id that is already
    there: only a submission does, when the id it generates is taken. *)
Definition repeats_id (e : event) (ts : list Task) : Prop :=
  match e with
  | Submit value _ random36 now_uid => trim value <> [] /\ uid random36 now_uid ∈ (id <$> ts)
  | _ => False
  end.

(** ** Exporting *)

Definition join_with (sep : jsstring) (l : list jsstring) : jsstring :=
  match l with
  | [] => []
  | x :: r => x ++ concat (List.map (app sep) r)
  end.

(** [JSON.stringify(value, null, space)] for a gap that is not empty: an
    array or object that is not empty has each element on a line of its own,
    indented by one more gap than the line of its bracket, and a colon is
    followed by a space. *)
Fixpoint JSON_stringify_gap (gap indent : jsstring) (v : json) : jsstring :=
  match v with
  | JArr [] => js "[]"
  | JArr l =>
      let inner := indent ++ gap in
      91 :: 10 :: inner
      ++ join_with (44 :: 10 :: inner) (List.map (JSON_stringify_gap gap inner) l)
      ++ 10 :: indent ++ [93]
  | JObj [] => js "{}"
  | JObj m =>
      let inner := indent ++ gap in
      123 :: 10 :: inner
      ++ join_with (44 :: 10 :: inner)
           (List.map (fun kv => QuoteJSONString (fst kv) ++ 58 :: 32
                                 :: JSON_stringify_gap gap inner (snd kv)) m)
      ++ 10 :: indent ++ [125]
  | _ => JSON_stringify v
  end.

(** [JSON.stringify(value, null, space)] with a number for [space]: that many
    spaces, ten at most, are the gap; with none the text is the compact one. *)
Definition JSON_stringify_space (space : nat) (v : json) : jsstring :=
  match replicate (Nat.min space 10) 32 with
  | [] => JSON_stringify v
  | gap => JSON_stringify_gap gap [] v
  end.





(** * Proofs *)

(** Unfolds the script down to the record operations. *)
Ltac run :=
  cbv [updateTask toggle commitEdit delete_click submit clear_all_click
       saveTasks render updateCounts type_input handle
       get_tasks set_tasks get_dom set_dom getItem setItem alert pure
       mbind M_bind mret M_ret];
  cbn [tasks localStorage dom alerts
       inputValue pendingList completedList emptyPending emptyCompleted
       countTotal countPending countCompleted badgePending badgeCompleted].

(** ** findIndex *)

Lemma findIndex_bounds {A} (test : A -> bool) l :
  (-1 <= findIndex test l < Z.of_nat (length l))%Z.
Proof.
  induction l as [|x l IH]; simpl; [lia|].
  destruct (test x); [lia|].
  destruct (Z.eqb_spec (findIndex test l) (-1)); lia.
Qed.

Lemma findIndex_none {A} (test : A -> bool) l :
  findIndex test l = (-1)%Z <-> Forall (fun x => test x = false) l.
Proof.
  induction l as [|x l IH]; simpl.
  - split; [constructor | reflexivity].
  - destruct (test x) eqn:Hx.
    + split; [lia | intros H; inversion H; congruence].
    + pose proof (findIndex_bounds test l).
      destruct (Z.eqb_spec (findIndex test l) (-1)).
      * split; [intros _; constructor; tauto | reflexivity].
      * split; [lia | intros H'; inversion H'; subst; tauto].
Qed.

Lemma findIndex_first {A} (test : A -> bool) l i x :
  l !! i = Some x -> test x = true ->
  (forall j y, (j < i)%nat -> l !! j = Some y -> test y = false) ->
  findIndex test l = Z.of_nat i.
Proof.
  revert i. induction l as [|a l IH]; intros i Hi Hx Hlt; [discriminate|].
  destruct i as [|i]; simpl in *.
  - injection Hi as ->. rewrite Hx. reflexivity.
  - rewrite (Hlt 0%nat a) by (reflexivity || lia).
    rewrite (IH i Hi Hx).
    + destruct (Z.eqb_spec (Z.of_nat i) (-1)); lia.
    + intros j y Hj Hy. apply (Hlt (S j) y); [lia | exact Hy].
Qed.

Lemma findIndex_spec {A} (test : A -> bool) l :
  (findIndex test l = (-1)%Z /\ Forall (fun x => test x = false) l) \/
  (exists i x, findIndex test l = Z.of_nat i /\ l !! i = Some x /\ test x = true /\
     forall j y, (j < i)%nat -> l !! j = Some y -> test y = false).
Proof.
  induction l as [|a l IH]; simpl.
  - left. split; [reflexivity | constructor].
  - destruct (test a) eqn:Ha.
    + right. exists 0%nat, a. repeat split; trivial. intros j y Hj. lia.
    + destruct IH as [[-> Hall] | (i & x & -> & Hi & Hx & Hlt)].
      * left. split; [reflexivity | constructor; assumption].
      * right. exists (S i), x.
        destruct (Z.eqb_spec (Z.of_nat i) (-1)); [lia|].
        repeat split; [lia | exact Hi | exact Hx |].
        intros [|j] y Hj Hy; simpl in Hy; [congruence|].
        apply (Hlt j y); [lia | exact Hy].
Qed.

(** ** The first task with an id *)

Lemma first_with_id_exists id0 ts :
  (exists t, t ∈ ts /\ id t = id0) -> exists i t, first_with_id id0 ts i t.
Proof.
  intros (t & Hin & Hid).
  destruct (findIndex_spec (fun t => bool_decide (id t = id0)) ts)
    as [[_ Hall] | (i & x & _ & Hi & Hx & Hlt)].
  - rewrite Forall_forall in Hall. specialize (Hall t Hin).
    apply bool_decide_eq_false in Hall. contradiction.
  - exists i, x. split; [exact Hi|]. split; [apply bool_decide_eq_true in Hx; exact Hx|].
    intros j y Hj Hy. specialize (Hlt j y Hj Hy).
    apply bool_decide_eq_false in Hlt. exact Hlt.
Qed.

Lemma first_with_id_findIndex id0 ts i t :
  first_with_id id0 ts i t ->
  findIndex (fun t => bool_decide (id t = id0)) ts = Z.of_nat i.
Proof.
  intros (Hi & Hid & Hlt). apply (findIndex_first _ ts i t Hi).
  - apply bool_decide_eq_true. exact Hid.
  - intros j y Hj Hy. apply bool_decide_eq_false. eapply Hlt; eauto.
Qed.

(** ** updateTask *)

Lemma alter_found {A} (f : A -> A) (l : list A) i x :
  l !! i = Some x -> alter f i l = <[i := f x]> l.
Proof.
  revert i. induction l as [|a l IH]; intros [|i] H; simpl in *; try discriminate.
  - injection H as ->. reflexivity.
  - f_equal. apply IH. exact H.
Qed.

Lemma updateTask_absent id0 p w :
  findIndex (fun t => bool_decide (id t = id0)) (tasks w) = (-1)%Z ->
  updateTask id0 p w = (Normal tt, w).
Proof. intros H. destruct w. run. simpl in H. rewrite H. reflexivity. Qed.

Lemma updateTask_found id0 p w i t :
  first_with_id id0 (tasks w) i t ->
  exists d,
    updateTask id0 p w =
      (Normal tt,
       mkWorld (<[i := spread t p]> (tasks w))
         (<[STORAGE_KEY := JSON_stringify (json_of_tasks (<[i := spread t p]> (tasks w)))]>
            (localStorage w))
         d (alerts w)).
Proof.
  intros H. pose proof (first_with_id_findIndex _ _ _ _ H) as Hidx.
  destruct H as (Hi & _). destruct w as [ts ls d al]. simpl in *.
  eexists. run. rewrite Hidx.
  destruct (Z.eqb_spec (Z.of_nat i) (-1)); [lia|].
  rewrite Nat2Z.id. rewrite (alter_found _ _ _ _ Hi). reflexivity.
Qed.

(** ** trim *)

Section trim_facts.

Lemma trimStart_split s :
  exists pre, s = pre ++ trimStart s /\ forallb is_space pre = true.
Proof.
  induction s as [|c s (pre & Hs & Hpre)]; simpl.
  - exists []. split; reflexivity.
  - destruct (is_space c) eqn:Hc.
    + exists (c :: pre). simpl. rewrite Hc, Hpre. split; [f_equal; exact Hs | reflexivity].
    + exists []. split; reflexivity.
Qed.

Lemma trimStart_head s c : head (trimStart s) = Some c -> is_space c = false.
Proof.
  induction s as [|a s IH]; simpl; [discriminate|].
  destruct (is_space a) eqn:Ha; [exact IH|].
  simpl. intros [= <-]. exact Ha.
Qed.

Lemma trimEnd_split s :
  exists post, s = trimEnd s ++ post /\ forallb is_space post = true.
Proof.
  destruct (trimStart_split (reverse s)) as (pre & Hs & Hpre).
  exists (reverse pre). split.
  - unfold trimEnd. rewrite <- reverse_app, <- Hs, reverse_involutive. reflexivity.
  - rewrite forallb_forall in *. intros x Hx. apply Hpre.
    apply list_elem_of_In, elem_of_reverse, list_elem_of_In. exact Hx.
Qed.

Lemma trimEnd_last s c : last (trimEnd s) = Some c -> is_space c = false.
Proof.
  unfold trimEnd. rewrite last_reverse. apply trimStart_head.
Qed.

Lemma trim_split s :
  exists pre post, s = pre ++ trim s ++ post /\
    forallb is_space pre = true /\ forallb is_space post = true.
Proof.
  destruct (trimStart_split s) as (pre & Hs & Hpre).
  destruct (trimEnd_split (trimStart s)) as (post & Hm & Hpost).
  exists pre, post. unfold trim. rewrite <- Hm. auto.
Qed.

Lemma trim_head s c : head (trim s) = Some c -> is_space c = false.
Proof.
  unfold trim. destruct (trimEnd_split (trimStart s)) as (post & Hm & _).
  intros H. apply (trimStart_head s). rewrite Hm.
  destruct (trimEnd (trimStart s)); [discriminate | exact H].
Qed.

Lemma trim_last s c : last (trim s) = Some c -> is_space c = false.
Proof. apply trimEnd_last. Qed.

End trim_facts.

(** ** The submit handler *)

Lemma submit_nonblank now random36 now_uid w c r :
  trim (inputValue (dom w)) = c :: r ->
  let t := mkTask (uid random36 now_uid) (c :: r) now false None in
  exists d,
    submit now random36 now_uid w =
      (Normal tt,
       mkWorld (t :: tasks w)
         (<[STORAGE_KEY := JSON_stringify (json_of_tasks (t :: tasks w))]> (localStorage w))
         d (alerts w)).
Proof.
  intros H t. destruct w as [ts ls d al]. simpl in H.
  eexists. run. rewrite H. reflexivity.
Qed.

(** ** The two lists of the page *)

Section partition.

Variable ts : list Task.

Lemma pending_elem t : t ∈ pending ts <-> t ∈ ts /\ completed t = false.
Proof.
  unfold pending. rewrite !list_elem_of_In, filter_In, negb_true_iff. tauto.
Qed.

Lemma completed_elem t : t ∈ completed_tasks ts <-> t ∈ ts /\ completed t = true.
Proof. unfold completed_tasks. rewrite !list_elem_of_In, filter_In. tauto. Qed.

Lemma filter_sublist (f : Task -> bool) : sublist (List.filter f ts) ts.
Proof.
  induction ts as [|a l IH]; simpl; [constructor|].
  destruct (f a); [apply sublist_skip | apply sublist_cons]; exact IH.
Qed.

Lemma pending_completed_perm : pending ts ++ completed_tasks ts ≡ₚ ts.
Proof.
  unfold pending, completed_tasks.
  induction ts as [|a l IH]; simpl; [reflexivity|].
  destruct (completed a); simpl.
  - rewrite <- Permutation_middle. apply Permutation_skip. exact IH.
  - apply Permutation_skip. exact IH.
Qed.

End partition.

Lemma render_lists w :
  exists w', render w = (Normal tt, w') /\ tasks w' = tasks w /\
    pendingList (dom w') = pending (tasks w) /\
    completedList (dom w') = completed_tasks (tasks w).
Proof. destruct w. eexists. split; [run; reflexivity|]. simpl. auto. Qed.

Lemma findIndex_absent id0 (ts : list Task) :
  id0 ∉ (id <$> ts) -> findIndex (fun t => bool_decide (id t = id0)) ts = (-1)%Z.
Proof.
  intros Hnot. apply findIndex_none, Forall_forall. intros t Ht.
  apply bool_decide_eq_false. intros Hid. apply Hnot.
  apply list_elem_of_fmap. exists t. split; [congruence | exact Ht].
Qed.

Lemma submit_blank_run now random36 now_uid w :
  trim (inputValue (dom w)) = [] -> submit now random36 now_uid w = (Normal tt, w).
Proof. intros H. destruct w as [ts ls d al]. simpl in H. run. rewrite H. reflexivity. Qed.

Lemma type_input_run value w :
  exists w', type_input value w = (Normal tt, w') /\ tasks w' = tasks w /\
    localStorage w' = localStorage w /\ alerts w' = alerts w /\
    inputValue (dom w') = value.
Proof. destruct w. eexists. split; [run; reflexivity|]. simpl. auto. Qed.

(** ** The completion invariant *)

Section consistency.

Lemma spread_consistent t p : coherent p -> consistent t -> consistent (spread t p).
Proof.
  unfold coherent, consistent, spread. simpl.
  destruct (p_completed p), (p_completedAt p); simpl; tauto.
Qed.

Lemma updateTask_tasks id0 p w :
  exists w',
    updateTask id0 p w = (Normal tt, w') /\
    (tasks w' = tasks w \/
     exists i, tasks w' = alter (fun t => spread t p) i (tasks w)).
Proof.
  destruct w as [ts ls d al]. run.
  destruct (Z.eqb_spec (findIndex (fun t => bool_decide (id t = id0)) ts) (-1)).
  - eexists. split; [reflexivity|]. left. reflexivity.
  - eexists. split; [reflexivity|]. right. eexists. reflexivity.
Qed.


Lemma updateTask_consistent id0 p w :
  coherent p -> Forall consistent (tasks w) ->
  exists w', updateTask id0 p w = (Normal tt, w') /\ Forall consistent (tasks w').
Proof.
  intros Hp Hw. destruct (updateTask_tasks id0 p w) as (w' & Hrun & [Heq | [i Heq]]);
    exists w'; (split; [exact Hrun|]); rewrite Heq; [exact Hw|].
  apply Forall_alter; [exact Hw|]. intros t _ Ht. apply spread_consistent; assumption.
Qed.

Lemma handle_consistent e w :
  Forall consistent (tasks w) ->
  exists w', handle e w = (Normal tt, w') /\ Forall consistent (tasks w').
Proof.
  intros Hw. destruct e as [value now r n | id0 checked now | value id0 | id0 c | c]; simpl.
  - destruct (type_input_run value w) as (wt & Htype & Hts & _ & _ & Hval).
    unfold mbind, M_bind. rewrite Htype. rewrite <- Hts in Hw.
    destruct (trim value) as [|c r'] eqn:Htrim.
    + exists wt. split; [apply submit_blank_run; congruence | exact Hw].
    + destruct (submit_nonblank now r n wt c r') as [d Hrun]; [congruence|].
      eexists. split; [exact Hrun|]. simpl.
      constructor; [|exact Hw]. unfold consistent. simpl.
      split; [intros [? ?]; discriminate | discriminate].
  - apply updateTask_consistent; [|exact Hw].
    unfold coherent. simpl. destruct checked; split; try discriminate; eauto.
    intros [? ?]. discriminate.
  - unfold commitEdit. destruct (trim value) as [|c r].
    + eexists. split; [reflexivity|]. exact Hw.
    + apply updateTask_consistent; [exact I | exact Hw].
  - destruct w as [ts ls d al]. destruct c; run; (eexists; split; [reflexivity|]); simpl;
      [|exact Hw].
    simpl in Hw. rewrite Forall_forall in *. intros t Ht.
    apply Hw. apply list_elem_of_In in Ht. apply filter_In in Ht as [Ht _].
    apply list_elem_of_In. exact Ht.
  - destruct w as [[|t ts] ls d al]; [eexists; split; [reflexivity|]; constructor|].
    destruct c; run; (eexists; split; [reflexivity|]); simpl; [constructor | exact Hw].
Qed.

Lemma handle_all_consistent es w :
  Forall consistent (tasks w) ->
  exists w', handle_all es w = (Normal tt, w') /\ Forall consistent (tasks w').
Proof.
  revert w. induction es as [|e es IH]; intros w Hw; simpl.
  - exists w. split; [reflexivity | exact Hw].
  - destruct (handle_consistent e w Hw) as (w1 & Hrun & Hw1).
    destruct (IH w1 Hw1) as (w2 & Hrun2 & Hw2).
    exists w2. split; [|exact Hw2].
    unfold mbind, M_bind. rewrite Hrun. exact Hrun2.
Qed.

End consistency.

(** ** The JSON round trip *)

Section decimal.

Lemma is_digit_digit_char d : d < 10 -> is_digit (digit_char d) = true.
Proof.
  intros H. unfold is_digit, digit_char.
  destruct (N.ltb_spec d 10); [|lia].
  apply andb_true_intro. split; apply N.leb_le; lia.
Qed.

Lemma digit_char_value d : d < 10 -> digit_char d - 48 = d.
Proof. intros H. unfold digit_char. destruct (N.ltb_spec d 10); lia. Qed.

Lemma digits_fuel_S f radix n acc :
  digits_fuel (S f) radix n acc =
    if n <? radix then digit_char (n mod radix) :: acc
    else digits_fuel f radix (n / radix) (digit_char (n mod radix) :: acc).
Proof. reflexivity. Qed.

Lemma digits_fuel_spec f : forall n acc,
  n < 2 ^ N.of_nat f ->
  exists ds,
    digits_fuel (S f) 10 n acc = ds ++ acc /\
    forallb is_digit ds = true /\
    (forall a, fold_left step10 ds a = a * 10 ^ N.of_nat (length ds) + n) /\
    (exists c r, ds = c :: r /\ (c = 48 -> n = 0 /\ r = [])).
Proof.
  induction f as [|f IH]; intros n acc Hn.
  - assert (n = 0) as -> by (simpl in Hn; lia).
    exists [48]. repeat split; try reflexivity.
    + intros a. cbn [fold_left length]. change (N.of_nat 1) with 1.
      rewrite N.pow_1_r. unfold step10. lia.
    + exists 48, []. auto.
  - rewrite digits_fuel_S. destruct (N.ltb_spec n 10) as [Hlt | Hge].
    + exists [digit_char (n mod 10)]. rewrite N.mod_small by exact Hlt.
      repeat split.
      * simpl. rewrite is_digit_digit_char by exact Hlt. reflexivity.
      * intros a. cbn [fold_left length]. change (N.of_nat 1) with 1.
        rewrite N.pow_1_r. unfold step10. rewrite digit_char_value by exact Hlt. lia.
      * exists (digit_char n), []. split; [reflexivity|].
        intros Hc. split; [|reflexivity].
        unfold digit_char in Hc. destruct (N.ltb_spec n 10); lia.
    + assert (Hdiv : n / 10 < 2 ^ N.of_nat f).
      { rewrite Nat2N.inj_succ, N.pow_succ_r' in Hn.
        apply N.Div0.div_lt_upper_bound. lia. }
      destruct (IH (n / 10) (digit_char (n mod 10) :: acc) Hdiv)
        as (ds & Heq & Hall & Hval & (c & r & Hds & Hzero)).
      assert (Hmod : n mod 10 < 10) by (apply N.mod_lt; lia).
      exists (ds ++ [digit_char (n mod 10)]). repeat split.
      * rewrite Heq, <- app_assoc. reflexivity.
      * rewrite forallb_app, Hall. simpl.
        rewrite is_digit_digit_char by exact Hmod. reflexivity.
      * intros a. rewrite fold_left_app, Hval. cbn [fold_left]. unfold step10 at 1.
        rewrite digit_char_value by exact Hmod.
        rewrite length_app, Nat2N.inj_add. cbn [length].
        rewrite N.pow_add_r. change (N.of_nat 1) with 1. rewrite N.pow_1_r.
        pose proof (N.div_mod n 10). lia.
      * exists c, (r ++ [digit_char (n mod 10)]). split; [rewrite Hds; reflexivity|].
        intros Hc. destruct (Hzero Hc) as [Hz _].
        assert (n / 10 <> 0); [|contradiction].
        intros Hq. apply N.div_small_iff in Hq; lia.
Qed.

Lemma digits_spec n :
  exists c r,
    digits 10 n = c :: r /\
    forallb is_digit (c :: r) = true /\
    digits_value (c :: r) = n /\
    (c = 48 -> n = 0 /\ r = []).
Proof.
  assert (Hn : n < 2 ^ N.of_nat (N.to_nat (N.size n))).
  { rewrite N2Nat.id. apply N.size_gt. }
  destruct (digits_fuel_spec _ n [] Hn) as (ds & Heq & Hall & Hval & (c & r & Hds & Hz)).
  rewrite app_nil_r in Heq. exists c, r. unfold digits. rewrite Heq, Hds.
  split; [reflexivity|]. rewrite <- Hds. split; [exact Hall|]. split; [|exact Hz].
  unfold digits_value. change (fun a c0 => 10 * a + (c0 - 48)) with step10.
  rewrite Hval. lia.
Qed.

End decimal.

Section numbers.

Lemma span_digits_app ds rest :
  forallb is_digit ds = true ->
  match rest with [] => True | c :: _ => is_digit c = false end ->
  span_digits (ds ++ rest) = (ds, rest).
Proof.
  intros Hds Hrest. induction ds as [|d ds IH]; simpl in *.
  - destruct rest as [|c r]; [reflexivity|]. simpl. rewrite Hrest. reflexivity.
  - apply andb_prop in Hds as [Hd Hds]. rewrite Hd, (IH Hds). reflexivity.
Qed.

Lemma closes_not_digit rest :
  closes rest -> match rest with [] => True | c :: _ => is_digit c = false end.
Proof. destruct rest as [|c r]; [trivial|]. intros [-> | [-> | ->]]; reflexivity. Qed.

Lemma read_int_digits n rest :
  closes rest -> read_int (digits 10 n ++ rest) = Some (digits 10 n, rest).
Proof.
  intros Hrest. destruct (digits_spec n) as (c & r & -> & Hall & _ & Hz).
  simpl in Hall. apply andb_prop in Hall as [Hc Hr].
  cbn [read_int app]. destruct (N.eqb_spec c 48) as [Hc48 | _].
  - destruct (Hz Hc48) as [_ ->]. reflexivity.
  - rewrite Hc, (span_digits_app r rest Hr (closes_not_digit rest Hrest)). reflexivity.
Qed.

Lemma read_frac_closes rest : closes rest -> read_frac rest = Some ([], rest).
Proof. destruct rest as [|c r]; [reflexivity|]. intros [-> | [-> | ->]]; reflexivity. Qed.

Lemma read_exp_closes rest : closes rest -> read_exp rest = Some ([], rest).
Proof. destruct rest as [|c r]; [reflexivity|]. intros [-> | [-> | ->]]; reflexivity. Qed.

(** The first character of a printed integer: a minus sign or a digit. *)
Lemma Number_toString_head z :
  exists c r, Number_toString 10 z = c :: r /\ (c = 45 \/ is_digit c = true).
Proof.
  unfold Number_toString. destruct (z <? 0)%Z.
  - eexists. eexists. split; [reflexivity | left; reflexivity].
  - destruct (digits_spec (Z.abs_N z)) as (c & r & -> & Hall & _).
    simpl in Hall. apply andb_prop in Hall as [Hc _].
    exists c, r. auto.
Qed.

Lemma read_number_toString z rest :
  closes rest -> read_number (Number_toString 10 z ++ rest) = Some (JNum z, rest).
Proof.
  intros Hrest. unfold Number_toString, read_number.
  destruct (Z.ltb_spec z 0) as [Hneg | Hpos].
  - cbn [app]. change (45 =? 45) with true. cbv iota.
    rewrite (read_int_digits _ rest Hrest). simpl.
    rewrite (read_frac_closes rest Hrest). simpl.
    rewrite (read_exp_closes rest Hrest). simpl.
    destruct (digits_spec (Z.abs_N z)) as (c & r & -> & _ & -> & _).
    replace (- Z.of_N (Z.abs_N z))%Z with z by lia. reflexivity.
  - pose proof (read_int_digits (Z.abs_N z) rest Hrest) as Hint.
    destruct (digits_spec (Z.abs_N z)) as (c & r & Hd & Hall & Hval & _).
    rewrite Hd in *. simpl in Hall. apply andb_prop in Hall as [Hc _].
    cbn [app] in *. destruct (N.eqb_spec c 45) as [-> | _]; [discriminate|].
    rewrite Hint. simpl.
    rewrite (read_frac_closes rest Hrest). simpl.
    rewrite (read_exp_closes rest Hrest). simpl.
    rewrite Hval. replace (Z.of_N (Z.abs_N z)) with z by lia. reflexivity.
Qed.

End numbers.

Section strings.

Lemma hex_value_digit_char d : d < 16 -> hex_value (digit_char d) = Some d.
Proof.
  intros Hd. unfold hex_value, digit_char, is_digit.
  destruct (N.ltb_spec d 10).
  - destruct (N.leb_spec 48 (48 + d)); [|lia].
    destruct (N.leb_spec (48 + d) 57); [|lia]. simpl. f_equal. lia.
  - destruct (N.leb_spec (87 + d) 57); [lia|]. rewrite andb_false_r.
    destruct (N.leb_spec 97 (87 + d)); [|lia].
    destruct (N.leb_spec (87 + d) 102); [|lia]. simpl. f_equal. lia.
Qed.

Lemma hex4_value c :
  c < 65536 ->
  4096 * (c / 4096 mod 16) + 256 * (c / 256 mod 16) + 16 * (c / 16 mod 16) + c mod 16 = c.
Proof.
  intros Hc.
  replace (c / 4096) with (c / 16 / 16 / 16) by (rewrite !N.Div0.div_div; reflexivity).
  replace (c / 256) with (c / 16 / 16) by (rewrite N.Div0.div_div; reflexivity).
  assert (Htop : c / 16 / 16 / 16 < 16).
  { rewrite !N.Div0.div_div. apply N.Div0.div_lt_upper_bound. exact Hc. }
  rewrite (N.mod_small _ _ Htop).
  pose proof (N.Div0.div_mod c 16).
  pose proof (N.Div0.div_mod (c / 16) 16).
  pose proof (N.Div0.div_mod (c / 16 / 16) 16).
  lia.
Qed.

Lemma read_string_unicode_escape c tail :
  c < 65536 ->
  read_string (unicode_escape c ++ tail) =
    '(str, rest) ← read_string tail; Some (c :: str, rest).
Proof.
  intros Hc. unfold unicode_escape. cbn [app read_string].
  change (92 =? 34) with false. change (92 =? 92) with true.
  change (117 =? 117) with true. cbv iota.
  assert (H16 : forall x, x mod 16 < 16) by (intros x; apply N.mod_lt; lia).
  rewrite !hex_value_digit_char by apply H16. cbn [mbind option_bind].
  rewrite (hex4_value c Hc). reflexivity.
Qed.

Lemma surrogate_bound c :
  is_leading_surrogate c = true \/ is_trailing_surrogate c = true -> c < 65536.
Proof.
  unfold is_leading_surrogate, is_trailing_surrogate.
  intros [H | H]; apply andb_prop in H as [_ H]; apply N.leb_le in H; lia.
Qed.

Lemma read_string_plain c tail :
  c <> 34 -> c <> 92 -> 32 <= c ->
  read_string (c :: tail) = '(str, rest) ← read_string tail; Some (c :: str, rest).
Proof.
  intros H34 H92 H32. cbn [read_string].
  destruct (N.eqb_spec c 34); [contradiction|].
  destruct (N.eqb_spec c 92); [contradiction|].
  destruct (N.ltb_spec c 32); [lia|]. reflexivity.
Qed.

Lemma read_string_quote_unit b c next tail :
  read_string (quote_unit b c next ++ tail) =
    '(str, rest) ← read_string tail; Some (c :: str, rest).
Proof.
  unfold quote_unit.
  destruct (N.eqb_spec c 8) as [-> | ?]; [reflexivity|].
  destruct (N.eqb_spec c 9) as [-> | ?]; [reflexivity|].
  destruct (N.eqb_spec c 10) as [-> | ?]; [reflexivity|].
  destruct (N.eqb_spec c 12) as [-> | ?]; [reflexivity|].
  destruct (N.eqb_spec c 13) as [-> | ?]; [reflexivity|].
  destruct (N.eqb_spec c 34) as [-> | ?]; [reflexivity|].
  destruct (N.eqb_spec c 92) as [-> | ?]; [reflexivity|].
  destruct (N.ltb_spec c 32) as [Hlt | Hge].
  { apply read_string_unicode_escape. lia. }
  assert (Hplain : read_string ([c] ++ tail) =
                   '(str, rest) ← read_string tail; Some (c :: str, rest))
    by (apply read_string_plain; assumption).
  destruct (is_leading_surrogate c) eqn:Hlead.
  { assert (c < 65536) by (apply surrogate_bound; auto).
    destruct next as [d|]; [destruct (is_trailing_surrogate d)|];
      auto using read_string_unicode_escape. }
  destruct (is_trailing_surrogate c) eqn:Htrail; [|exact Hplain].
  assert (c < 65536) by (apply surrogate_bound; auto).
  destruct b; auto using read_string_unicode_escape.
Qed.

Lemma read_string_quote_units s : forall b rest,
  read_string (quote_units b s ++ 34 :: rest) = Some (s, rest).
Proof.
  induction s as [|c s IH]; intros b rest; [reflexivity|].
  cbn [quote_units]. rewrite <- app_assoc, read_string_quote_unit, IH. reflexivity.
Qed.

End strings.

Section json_induction.

Variable P : json -> Prop.
Hypothesis Hnull : P JNull.
Hypothesis Hbool : forall b, P (JBool b).
Hypothesis Hnum : forall z, P (JNum z).
Hypothesis Hfloat : forall lit, P (JFloat lit).
Hypothesis Hstr : forall s, P (JStr s).
Hypothesis Harr : forall l, Forall P l -> P (JArr l).
Hypothesis Hobj : forall m, Forall (fun kv => P (snd kv)) m -> P (JObj m).

Lemma json_nested_ind : forall v, P v.
Proof.
  fix IH 1.
  intros [| b | z | lit | s | l | m];
    [apply Hnull | apply Hbool | apply Hnum | apply Hfloat | apply Hstr | | ].
  - apply Harr. induction l as [|v l IHl]; constructor; [apply IH | exact IHl].
  - apply Hobj. induction m as [|kv m IHm]; constructor; [apply IH | exact IHm].
Qed.

End json_induction.

Section objects.

Lemma obj_set_fresh k v m : k ∉ (fst <$> m) -> obj_set k v m = m ++ [(k, v)].
Proof.
  induction m as [|[k' v'] m IH]; intros Hk; [reflexivity|].
  cbn [obj_set]. rewrite fmap_cons, not_elem_of_cons in Hk. destruct Hk as [Hne Hk].
  rewrite bool_decide_eq_false_2 by (simpl in Hne; congruence).
  rewrite (IH Hk). reflexivity.
Qed.

Lemma make_object_from acc m :
  NoDup (fst <$> (acc ++ m)) ->
  fold_left (fun m kv => obj_set (fst kv) (snd kv) m) m acc = acc ++ m.
Proof.
  revert acc. induction m as [|[k v] m IH]; intros acc Hnd; simpl.
  - rewrite app_nil_r. reflexivity.
  - rewrite obj_set_fresh.
    + rewrite IH; rewrite <- app_assoc; [reflexivity | exact Hnd].
    + rewrite fmap_app, fmap_cons in Hnd. apply NoDup_app in Hnd as (_ & Hdisj & _).
      intros Hin. apply (Hdisj k Hin). left.
Qed.

Lemma make_object_nodup m : NoDup (List.map fst m) -> make_object m = m.
Proof. intros H. apply (make_object_from [] m). exact H. Qed.

End objects.

Section roundtrip.

Lemma JSON_stringify_head v :
  printable v = true ->
  exists c r, JSON_stringify v = c :: r /\ starts_value c.
Proof.
  destruct v as [| [|] | z | lit | s | l | m]; intros Hv;
    try (eexists; eexists; split; [reflexivity | split; [reflexivity | split; discriminate]]).
  - destruct (Number_toString_head z) as (c & r & Heq & Hc).
    exists c, r. split; [exact Heq|].
    destruct Hc as [-> | Hc]; [split; [reflexivity | split; discriminate]|].
    unfold is_digit in Hc. apply andb_prop in Hc as [H1 H2].
    apply N.leb_le in H1, H2. unfold starts_value, is_ws.
    repeat split; try lia.
    repeat (apply orb_false_intro); apply N.eqb_neq; lia.
  - discriminate.
Qed.

Lemma skip_ws_starts c r : is_ws c = false -> skip_ws (c :: r) = c :: r.
Proof. intros H. simpl. rewrite H. reflexivity. Qed.

Lemma closes_separator (tail : list jsstring) (close : N) rest :
  close = 93 \/ close = 125 ->
  closes (concat (List.map (cons 44) tail) ++ close :: rest).
Proof. destruct tail; simpl; tauto. Qed.

Lemma parse_elements_stringify rest : forall l v n,
  Forall reads_back (v :: l) ->
  forallb printable (v :: l) = true ->
  (list_sum (List.map (fun v => S (json_size v)) (v :: l)) <= n)%nat ->
  parse_elements n
    (JSON_stringify v ++ concat (List.map (cons 44) (List.map JSON_stringify l)) ++ 93 :: rest)
  = Some (v :: l, rest).
Proof.
  induction l as [|w l IH]; intros v n Hall Hpr Hn;
    apply Forall_cons_1 in Hall as [Hv Hall];
    cbn [forallb] in Hpr; apply andb_prop in Hpr as [Hpv Hpr];
    cbn [List.map list_sum fold_right] in Hn;
    (destruct n as [|n]; [lia|]); cbn [parse_elements].
  - rewrite (Hv Hpv n) by (simpl; auto; lia). reflexivity.
  - rewrite (Hv Hpv n); [|lia|apply closes_separator; auto].
    cbn [mbind option_bind List.map concat app skip_ws].
    change (is_ws 44) with false. change (44 =? 44) with true. cbv iota.
    rewrite <- app_assoc.
    rewrite (IH w n Hall Hpr) by (cbn [List.map list_sum fold_right]; lia). reflexivity.
Qed.

Lemma parse_members_stringify rest : forall m k v n,
  Forall (fun kv => reads_back (snd kv)) ((k, v) :: m) ->
  forallb (fun kv => printable (snd kv)) ((k, v) :: m) = true ->
  (list_sum (List.map (fun kv => S (json_size (snd kv))) ((k, v) :: m)) <= n)%nat ->
  parse_members n
    (QuoteJSONString k ++ 58 :: JSON_stringify v
       ++ concat (List.map (cons 44)
            (List.map (fun kv => QuoteJSONString (fst kv) ++ 58 :: JSON_stringify (snd kv)) m))
       ++ 125 :: rest)
  = Some ((k, v) :: m, rest).
Proof.
  induction m as [|[k' w] m IH]; intros k v n Hall Hpr Hn;
    apply Forall_cons_1 in Hall as [Hv Hall];
    cbn [forallb] in Hpr; apply andb_prop in Hpr as [Hpv Hpr];
    cbn [List.map list_sum fold_right snd] in Hn; cbn [snd] in Hv, Hpv;
    (destruct n as [|n]; [lia|]);
    unfold QuoteJSONString at 1; cbn [parse_members app skip_ws];
    change (is_ws 34) with false; change (34 =? 34) with true; cbv iota;
    rewrite <- !app_assoc; cbn [app];
    rewrite read_string_quote_units;
    cbn [mbind option_bind skip_ws];
    change (is_ws 58) with false; change (58 =? 58) with true; cbv iota.
  - rewrite (Hv Hpv n) by (simpl; auto; lia). reflexivity.
  - rewrite (Hv Hpv n); [|lia|apply closes_separator; auto].
    cbn [mbind option_bind List.map concat app skip_ws fst snd].
    change (is_ws 44) with false. change (44 =? 44) with true. cbv iota.
    rewrite <- !app_assoc. cbn [app].
    rewrite (IH k' w n Hall Hpr) by (cbn [List.map list_sum fold_right snd]; lia). reflexivity.
Qed.

Lemma parse_value_stringify v : reads_back v.
Proof.
  induction v as [| b | z | lit | s | l IH | m IH] using json_nested_ind;
    intros Hpr n rest Hn Hrest; (destruct n as [|n]; [simpl in Hn; lia|]).
  - reflexivity.
  - destruct b; reflexivity.
  - destruct (Number_toString_head z) as (c & r & Heq & Hc). cbn [JSON_stringify].
    rewrite <- (read_number_toString z rest Hrest). rewrite Heq.
    cbn [parse_value app]. unfold is_digit in Hc.
    assert (Hcases : c = 45 \/ (48 <= c /\ c <= 57)).
    { destruct Hc as [-> | Hc]; [auto|]. apply andb_prop in Hc as [H1 H2].
      apply N.leb_le in H1, H2. auto. }
    assert (Hws : is_ws c = false).
    { unfold is_ws. repeat (apply orb_false_intro); apply N.eqb_neq; lia. }
    rewrite (skip_ws_starts c _ Hws).
    repeat match goal with
           | |- context [c =? ?k] => destruct (N.eqb_spec c k); [lia|]
           end.
    reflexivity.
  - discriminate.
  - cbn [JSON_stringify]. unfold QuoteJSONString. cbn [parse_value app skip_ws].
    change (is_ws 34) with false. cbv iota.
    change (34 =? 123) with false. change (34 =? 91) with false.
    change (34 =? 34) with true. cbv iota.
    rewrite <- app_assoc. cbn [app]. rewrite read_string_quote_units. reflexivity.
  - cbn [JSON_stringify printable json_size list_sum fold_right List.map] in *.
    cbn [parse_value app skip_ws]. change (is_ws 91) with false. cbv iota.
    change (91 =? 123) with false. change (91 =? 91) with true. cbv iota.
    rewrite <- app_assoc. cbn [app].
    destruct l as [|v l]; [reflexivity|].
    cbn [List.map join_comma]. rewrite <- !app_assoc.
    destruct (JSON_stringify_head v) as (c & r & Heq & Hws & H93 & _).
    { cbn [forallb] in Hpr. apply andb_prop in Hpr as [Hpv _]. exact Hpv. }
    pose proof (parse_elements_stringify rest l v n IH Hpr) as Hel.
    rewrite Heq in *. cbn [app] in *. rewrite (skip_ws_starts c _ Hws).
    destruct (N.eqb_spec c 93); [contradiction|].
    rewrite Hel by lia. reflexivity.
  - cbn [JSON_stringify printable json_size list_sum fold_right List.map] in *.
    apply andb_prop in Hpr as [Hnd Hpr]. apply bool_decide_eq_true in Hnd.
    cbn [parse_value app skip_ws]. change (is_ws 123) with false. cbv iota.
    change (123 =? 123) with true. cbv iota.
    rewrite <- app_assoc. cbn [app].
    destruct m as [|[k v] m]; [reflexivity|].
    cbn [List.map join_comma fst snd]. rewrite <- !app_assoc.
    pose proof (parse_members_stringify rest m k v n IH Hpr) as Hmem.
    unfold QuoteJSONString at 1 in Hmem. unfold QuoteJSONString at 1. cbn [app] in *.
    rewrite <- !app_assoc in *. cbn [app skip_ws] in *.
    change (is_ws 34) with false. cbv iota. change (34 =? 125) with false. cbv iota.
    rewrite Hmem by lia. cbn [mbind option_bind].
    rewrite (make_object_nodup _ Hnd). reflexivity.
Qed.

End roundtrip.

Section whole_text.

Lemma length_separated (f : json -> jsstring) (g : json -> nat) (l : list json) :
  Forall (fun v => (g v <= length (f v))%nat) l ->
  (list_sum (List.map (fun v => S (g v)) l)
   <= length (concat (List.map (cons 44%N) (List.map f l))))%nat.
Proof.
  induction 1 as [|v l Hv _ IH]; [reflexivity|].
  cbn [List.map concat list_sum fold_right]. rewrite length_app. simpl length.
  unfold list_sum in IH. lia.
Qed.

Lemma length_join_comma (l : list jsstring) :
  (length (concat (List.map (cons 44%N) l)) <= S (length (join_comma l)))%nat.
Proof.
  destruct l as [|x l]; [simpl; lia|].
  cbn [List.map concat join_comma]. cbn [app length]. rewrite !length_app. lia.
Qed.

Lemma json_size_le_length v :
  printable v = true -> (json_size v <= length (JSON_stringify v))%nat.
Proof.
  induction v as [| b | z | lit | s | l IH | m IH] using json_nested_ind; intros Hpr.
  - simpl. lia.
  - destruct b; simpl; lia.
  - destruct (JSON_stringify_head (JNum z) Hpr) as (c & r & -> & _). simpl. lia.
  - discriminate.
  - simpl. lia.
  - cbn [JSON_stringify json_size printable] in *.
    assert (Hall : Forall (fun v => (json_size v <= length (JSON_stringify v))%nat) l).
    { rewrite Forall_forall in *. intros v Hv. apply (IH v Hv).
      rewrite forallb_forall in Hpr. apply Hpr, list_elem_of_In, Hv. }
    pose proof (length_separated JSON_stringify json_size l Hall) as Hsum.
    pose proof (length_join_comma (List.map JSON_stringify l)) as Hjoin.
    cbn [length]. rewrite length_app. cbn [length]. lia.
  - cbn [JSON_stringify json_size printable] in *.
    apply andb_prop in Hpr as [_ Hpr].
    set (f := fun kv : jsstring * json =>
                QuoteJSONString (fst kv) ++ 58%N :: JSON_stringify (snd kv)).
    assert (Hsum : (list_sum (List.map (fun kv => S (json_size (snd kv))) m)
                    <= length (concat (List.map (cons 44%N) (List.map f m))))%nat).
    { clear -IH Hpr. induction m as [|[k v] m IHm]; [reflexivity|].
      apply Forall_cons_1 in IH as [Hv IH]. cbn [forallb] in Hpr.
      apply andb_prop in Hpr as [Hpv Hpr]. specialize (IHm IH Hpr).
      specialize (Hv Hpv). cbn [snd] in Hv.
      cbn [List.map concat list_sum fold_right snd]. rewrite length_app. simpl length.
      rewrite !length_app. simpl length.
      unfold list_sum in IHm. lia. }
    pose proof (length_join_comma (List.map f m)) as Hjoin.
    cbn [length]. rewrite length_app. cbn [length]. lia.
Qed.

Theorem JSON_parse_stringify v :
  printable v = true -> JSON_parse (JSON_stringify v) = Normal v.
Proof.
  intros Hpr. unfold JSON_parse.
  pose proof (parse_value_stringify v Hpr (S (length (JSON_stringify v))) []) as Hparse.
  rewrite app_nil_r in Hparse. rewrite Hparse; [reflexivity | | exact I].
  pose proof (json_size_le_length v Hpr). lia.
Qed.

End whole_text.

Section task_values.

Lemma printable_json_of_tasks ts : printable (json_of_tasks ts) = true.
Proof.
  unfold json_of_tasks. cbn [printable]. induction ts as [|t ts IH]; [reflexivity|].
  cbn [List.map forallb]. rewrite IH, andb_true_r.
  destruct t as [i x c b [a|]]; reflexivity.
Qed.

Lemma task_of_json_of_task t : task_of_json (json_of_task t) = Some t.
Proof. destruct t as [i x c b [a|]]; reflexivity. Qed.

Lemma tasks_of_json_of_tasks ts : tasks_of_json (json_of_tasks ts) = Some ts.
Proof.
  unfold tasks_of_json, json_of_tasks. induction ts as [|t ts IH]; [reflexivity|].
  cbn [List.map mapM]. rewrite task_of_json_of_task, IH. reflexivity.
Qed.

Lemma JSON_stringify_array l : exists r, JSON_stringify (JArr l) = 91 :: r.
Proof. eexists. reflexivity. Qed.

End task_values.

(** ** Saving and loading *)

Section persistence.

Lemma saveTasks_run w :
  exists d,
    saveTasks w =
      (Normal tt,
       mkWorld (tasks w)
         (<[STORAGE_KEY := JSON_stringify (json_of_tasks (tasks w))]> (localStorage w))
         d (alerts w)).
Proof. destruct w. eexists. run. reflexivity. Qed.

Lemma loadTasks_stored w text :
  localStorage w !! STORAGE_KEY = Some text ->
  text <> [] ->
  loadTasks w =
    (match JSON_parse text with Normal v => Normal v | Throw _ => Normal (JArr []) end, w).
Proof.
  intros Hraw Hne. unfold loadTasks, try_catch, getItem, pure, mbind, M_bind, mret, M_ret.
  rewrite Hraw. destruct text as [|c r]; [congruence|].
  destruct (JSON_parse (c :: r)); reflexivity.
Qed.

Lemma loadTasks_absent w :
  localStorage w !! STORAGE_KEY = None \/ localStorage w !! STORAGE_KEY = Some [] ->
  loadTasks w = (Normal (JArr []), w).
Proof.
  intros Hraw. unfold loadTasks, try_catch, getItem, pure, mbind, M_bind, mret, M_ret.
  destruct Hraw as [-> | ->]; reflexivity.
Qed.

Lemma loadTasks_unparseable w text e :
  localStorage w !! STORAGE_KEY = Some text ->
  JSON_parse text = Throw e ->
  loadTasks w = (Normal (JArr []), w).
Proof.
  intros Hraw Hparse. destruct text as [|c r].
  - apply loadTasks_absent. auto.
  - rewrite (loadTasks_stored w (c :: r) Hraw) by discriminate.
    rewrite Hparse. reflexivity.
Qed.

(** [loadTasks] catches whatever [JSON.parse] throws. *)
Lemma loadTasks_never_throws w : exists v, loadTasks w = (Normal v, w).
Proof.
  destruct (localStorage w !! STORAGE_KEY) as [[|c r]|] eqn:Hraw.
  - exists (JArr []). apply loadTasks_absent. auto.
  - rewrite (loadTasks_stored w (c :: r) Hraw) by discriminate.
    destruct (JSON_parse (c :: r)); eexists; reflexivity.
  - exists (JArr []). apply loadTasks_absent. auto.
Qed.

Lemma loadTasks_saved w ts :
  localStorage w !! STORAGE_KEY = Some (JSON_stringify (json_of_tasks ts)) ->
  loadTasks w = (Normal (json_of_tasks ts), w).
Proof.
  intros Hraw. rewrite (loadTasks_stored w _ Hraw).
  - rewrite JSON_parse_stringify by apply printable_json_of_tasks. reflexivity.
  - destruct (JSON_stringify_array (List.map json_of_task ts)) as [r Hr].
    unfold json_of_tasks. rewrite Hr. discriminate.
Qed.

Lemma startup_saved (storage : gmap jsstring jsstring) ts :
  storage !! STORAGE_KEY = Some (JSON_stringify (json_of_tasks ts)) ->
  exists d, startup storage = Some (mkWorld ts storage d []).
Proof.
  intros Hraw. unfold startup.
  rewrite (loadTasks_saved (mkWorld [] storage blank_page []) ts Hraw).
  rewrite tasks_of_json_of_tasks. eexists. reflexivity.
Qed.

Lemma save_then_startup w :
  exists w1 d,
    saveTasks w = (Normal tt, w1) /\
    loadTasks w1 = (Normal (json_of_tasks (tasks w)), w1) /\
    startup (localStorage w1) = Some (mkWorld (tasks w) (localStorage w1) d []).
Proof.
  destruct (saveTasks_run w) as [d Hsave].
  eexists. 
  assert (Hraw : forall d', localStorage
            (mkWorld (tasks w)
               (<[STORAGE_KEY := JSON_stringify (json_of_tasks (tasks w))]> (localStorage w))
               d' (alerts w)) !! STORAGE_KEY
          = Some (JSON_stringify (json_of_tasks (tasks w))))
    by (intros d'; apply lookup_insert_eq).
  destruct (startup_saved _ _ (Hraw d)) as [d2 Hstart].
  exists d2. split; [exact Hsave|]. split; [|exact Hstart].
  apply loadTasks_saved, Hraw.
Qed.

End persistence.

(** ** Adding a task *)

Lemma add_nonblank_run value now random36 now_uid w c r :
  trim value = c :: r ->
  exists w',
    handle (Submit value now random36 now_uid) w = (Normal tt, w') /\
    tasks w' = mkTask (uid random36 now_uid) (c :: r) now false None :: tasks w /\
    localStorage w' !! STORAGE_KEY = Some (JSON_stringify (json_of_tasks (tasks w'))) /\
    countTotal (dom w') = Number_toString 10 (total (counts (tasks w')))  /\
    pendingList (dom w') = pending (tasks w') /\
    inputValue (dom w') = [].
Proof.
  intros Htrim. destruct w as [ts ls d al]. eexists. split.
  { run. rewrite Htrim. reflexivity. }
  cbn [tasks localStorage dom countTotal pendingList inputValue].
  split; [reflexivity|]. split; [apply lookup_insert_eq|]. auto.
Qed.

(** ** Reloading at any time *)

Section reloading.









End reloading.

(** ** A run of the page *)

(** Two tasks are added and the older one is ticked: the newer one is first,
    the lists and the counters follow, and the slot holds the text of the
    sequence. *)
Example buy_milk_walk_dog :
  let milk_id := uid (js "0.4fzyo82mvyr") 1001 in
  let w := snd (handle_all [Submit (js "Buy milk") 1000 (js "0.4fzyo82mvyr") 1001;
                            Submit (js "  Walk dog ") 2000 (js "0.k3x9q0aa7bc") 2001;
                            Toggle milk_id true 3000]
                  (mkWorld [] ∅ blank_page [])) in
  milk_id = js "4fzyo82mrt" /\
  tasks w = [mkTask (js "k3x9q0aa1jl") (js "Walk dog") 2000 false None;
             mkTask (js "4fzyo82mrt") (js "Buy milk") 1000 true (Some 3000%Z)] /\
  text <$> pendingList (dom w) = [js "Walk dog"] /\
  text <$> completedList (dom w) = [js "Buy milk"] /\
  counts (tasks w) = mkCounts 2 1 1 /\
  (countTotal (dom w), countPending (dom w), countCompleted (dom w)) = (js "2", js "1", js "1") /\
  (tasks <$> startup (localStorage w)) = Some (tasks w).
Proof. vm_compute. repeat split; reflexivity. Qed.

(** * The statements of the specification *)

(** C1, as the specification states it, does not hold: for an id that no task
    of the sample page has, [updateTask] does not raise [NotFoundError]. *)
Lemma updateTask_unknown_id_does_not_throw :
  (js "zz" ∉ (id <$> tasks sample)) /\
  fst (updateTask (js "zz") (mkPatch (Some (js "Feed cat")) None None) sample)
    <> Throw "NotFoundError".
Proof.
  split; [apply (bool_decide_unpack _); vm_compute; exact I | vm_compute; discriminate].
Qed.

(** C1, as the code has it: for every id that no task of the current sequence
    has, [updateTask(id, patch)] returns normally, raising nothing, and
    leaves the whole state as it was: the task sequence, the stored text and
    the page. *)
Theorem updateTask_unknown_id (w : World) (id0 : jsstring) (p : Patch) :
  id0 ∉ (id <$> tasks w) -> updateTask id0 p w = (Normal tt, w).
Proof. intros H. apply updateTask_absent, findIndex_absent, H. Qed.

Lemma updateTask_unknown_id_witness :
  (js "zz" ∉ (id <$> tasks sample)) /\
  updateTask (js "zz") (mkPatch (Some (js "Feed cat")) None None) sample = (Normal tt, sample).
Proof.
  assert (H : js "zz" ∉ (id <$> tasks sample))
    by (apply (bool_decide_unpack _); vm_compute; exact I).
  split; [exact H | apply updateTask_unknown_id; exact H].
Defined.

(** C2, as the specification states it, does not hold: submitting the form
    with an empty text or with three spaces does not raise
    [ValidationError]. *)
Lemma add_blank_does_not_throw :
  trim (js "   ") = [] /\ trim [] = [] /\
  fst (handle (Submit (js "   ") 3000 (js "0.4fzyo82mvyr") 3001) sample)
    <> Throw "ValidationError" /\
  fst (handle (Submit [] 3000 (js "0.4fzyo82mvyr") 3001) sample)
    <> Throw "ValidationError".
Proof. repeat split; try reflexivity; vm_compute; discriminate. Qed.

(** C2, as the code has it: for every input text whose trimmed form is empty,
    submitting the form returns normally, raising nothing, and leaves the
    task sequence, the stored text and the alerts unchanged. *)
Theorem add_blank (w : World) (value : jsstring) (now : Z) (random36 : jsstring) (now_uid : Z) :
  trim value = [] ->
  exists w',
    handle (Submit value now random36 now_uid) w = (Normal tt, w') /\
    tasks w' = tasks w /\
    localStorage w' = localStorage w /\
    alerts w' = alerts w.
Proof.
  intros Hblank.
  destruct (type_input_run value w) as (wt & Htype & Hts & Hls & Hal & Hval).
  exists wt. split; [|auto].
  cbn [handle]. unfold mbind, M_bind. rewrite Htype.
  apply submit_blank_run. rewrite Hval. exact Hblank.
Qed.

Lemma add_blank_witness :
  trim (js "   ") = [] /\
  exists w',
    handle (Submit (js "   ") 3000 (js "0.4fzyo82mvyr") 3001) sample = (Normal tt, w') /\
    tasks w' = tasks sample /\
    localStorage w' = localStorage sample /\
    alerts w' = alerts sample.
Proof. split; [reflexivity | apply add_blank; reflexivity]. Defined.

(** C3 fails on the code at a stored text that is well-formed JSON but not an
    array of tasks. With the text of the empty object in the slot,
    [loadTasks] returns that object, which is neither the empty array nor any
    array of tasks; with the text [null] it returns [null]. *)
Theorem loadTasks_keeps_a_non_array :
  let w := mkWorld [] {[STORAGE_KEY := js "{}"]} blank_page [] in
  let w' := mkWorld [] {[STORAGE_KEY := js "null"]} blank_page [] in
  JSON_parse (js "{}") = Normal (JObj []) /\
  loadTasks w = (Normal (JObj []), w) /\
  JObj [] <> JArr [] /\
  tasks_of_json (JObj []) = None /\
  startup (localStorage w) = None /\
  loadTasks w' = (Normal JNull, w') /\
  tasks_of_json JNull = None.
Proof.
  cbv zeta. split; [reflexivity|]. split; [vm_compute; reflexivity|].
  split; [discriminate|]. split; [reflexivity|]. split; [vm_compute; reflexivity|].
  split; [vm_compute; reflexivity | reflexivity].
Qed.

(** C4, as the specification states it, does not hold: [updateTask] with a
    text of three spaces for an existing id raises no [ValidationError], and
    with a text that has spaces around it stores that text untrimmed. *)
Lemma updateTask_does_not_validate_text :
  js "a1" ∈ (id <$> tasks sample) /\
  trim (js "   ") = [] /\
  fst (updateTask (js "a1") (mkPatch (Some (js "   ")) None None) sample)
    <> Throw "ValidationError" /\
  text <$> tasks (snd (updateTask (js "a1") (mkPatch (Some (js " Buy tea ")) None None) sample))
             !! 1%nat
    = Some (js " Buy tea ") /\
  js " Buy tea " <> trim (js " Buy tea ").
Proof.
  split; [apply (bool_decide_unpack _); vm_compute; exact I|].
  repeat split; try reflexivity; vm_compute; discriminate.
Qed.

(** C4, as the code has it. The check and the trimming are in [commitEdit],
    the one caller that changes a text. For every existing task id and every
    new text: if the text trims to empty, [commitEdit] shows an alert, raises
    nothing and changes neither the tasks nor the storage; otherwise the text
    stored for the first task with that id is the trimmed text. [updateTask]
    itself stores the text of a patch as it is given. *)
Theorem commitEdit_validates_and_trims (w : World) (id0 value : jsstring) :
  id0 ∈ (id <$> tasks w) ->
  exists i t,
    first_with_id id0 (tasks w) i t /\
    (trim value = [] ->
       commitEdit value id0 w =
         (Normal tt,
          mkWorld (tasks w) (localStorage w) (dom w)
            (alerts w ++ [js "Task cannot be empty."]))) /\
    (trim value <> [] ->
       exists w',
         commitEdit value id0 w = (Normal tt, w') /\
         tasks w' =
           <[i := mkTask (id t) (trim value) (createdAt t) (completed t) (completedAt t)]>
             (tasks w) /\
         text <$> tasks w' !! i = Some (trim value)) /\
    (forall s, exists w',
         updateTask id0 (mkPatch (Some s) None None) w = (Normal tt, w') /\
         text <$> tasks w' !! i = Some s).
Proof.
  intros Hin. apply list_elem_of_fmap in Hin as (t0 & Hid0 & Hin).
  destruct (first_with_id_exists id0 (tasks w)) as (i & t & Hfirst); [eauto|].
  exists i, t. split; [exact Hfirst|].
  assert (Hlt : (i < length (tasks w))%nat).
  { destruct Hfirst as (Hi & _). eapply lookup_lt_Some, Hi. }
  split; [|split].
  - intros Hblank. unfold commitEdit. rewrite Hblank. reflexivity.
  - intros Hne. unfold commitEdit.
    destruct (trim value) as [|c r] eqn:Htrim; [congruence|].
    destruct (updateTask_found id0 (mkPatch (Some (c :: r)) None None) w i t Hfirst) as [d Hrun].
    eexists. split; [exact Hrun|]. simpl. split; [reflexivity|].
    rewrite list_lookup_insert_eq by exact Hlt. reflexivity.
  - intros s.
    destruct (updateTask_found id0 (mkPatch (Some s) None None) w i t Hfirst) as [d Hrun].
    eexists. split; [exact Hrun|]. simpl.
    rewrite list_lookup_insert_eq by exact Hlt. reflexivity.
Qed.

Lemma commitEdit_validates_and_trims_witness :
  js "a1" ∈ (id <$> tasks sample) /\
  exists i t,
    first_with_id (js "a1") (tasks sample) i t /\
    (trim (js " Buy tea ") = [] ->
       commitEdit (js " Buy tea ") (js "a1") sample =
         (Normal tt,
          mkWorld (tasks sample) (localStorage sample) (dom sample)
            (alerts sample ++ [js "Task cannot be empty."]))) /\
    (trim (js " Buy tea ") <> [] ->
       exists w',
         commitEdit (js " Buy tea ") (js "a1") sample = (Normal tt, w') /\
         tasks w' =
           <[i := mkTask (id t) (trim (js " Buy tea ")) (createdAt t) (completed t)
                    (completedAt t)]>
             (tasks sample) /\
         text <$> tasks w' !! i = Some (trim (js " Buy tea "))) /\
    (forall s, exists w',
         updateTask (js "a1") (mkPatch (Some s) None None) sample = (Normal tt, w') /\
         text <$> tasks w' !! i = Some s).
Proof.
  assert (H : js "a1" ∈ (id <$> tasks sample))
    by (apply (bool_decide_unpack _); vm_compute; exact I).
  split; [exact H | apply commitEdit_validates_and_trims; exact H].
Defined.

(** C5, as the specification states it, does not hold: [updateTask] with the
    patch [{completed: true}] alone succeeds on the sample page and leaves a
    task that is completed and has no [completedAt]. *)
Lemma updateTask_breaks_consistency :
  Forall consistent (tasks sample) /\
  fst (updateTask (js "a1") (mkPatch None (Some true) None) sample) = Normal tt /\
  ~ Forall consistent
      (tasks (snd (updateTask (js "a1") (mkPatch None (Some true) None) sample))).
Proof.
  split; [|split].
  - apply (bool_decide_unpack _). vm_compute. exact I.
  - vm_compute. reflexivity.
  - assert (Htasks :
      tasks (snd (updateTask (js "a1") (mkPatch None (Some true) None) sample))
      = [dog; mkTask (js "a1") (js "Buy milk") 1000 true None])
      by (vm_compute; reflexivity).
    rewrite Htasks. intros H.
    inversion H as [|? ? _ H2]. inversion H2 as [|? ? [_ Hc] _].
    destruct Hc as [? ?]; [reflexivity | discriminate].
Qed.

(** C5, as the code has it. The store trusts its callers, and the callers on
    the page keep the invariant. From a sequence in which every task has
    [completedAt] present exactly when [completed] is true:
    - whatever the user does (add, toggle, edit, delete, clear all), every
      handler returns normally and every task of the resulting sequence still
      has it;
    - [updateTask] keeps it for every patch that sets [completed] and
      [completedAt] in agreement or sets neither;
    - saving that sequence and loading the page again gives a sequence in
      which every task has it. *)
Theorem handlers_keep_consistency (es : list event) (w : World) :
  Forall consistent (tasks w) ->
  (exists w', handle_all es w = (Normal tt, w') /\ Forall consistent (tasks w')) /\
  (forall id0 p, coherent p ->
     exists w', updateTask id0 p w = (Normal tt, w') /\ Forall consistent (tasks w')) /\
  (exists w1 w2,
     saveTasks w = (Normal tt, w1) /\
     startup (localStorage w1) = Some w2 /\
     Forall consistent (tasks w2)).
Proof.
  intros Hw. split; [|split].
  - apply handle_all_consistent, Hw.
  - intros id0 p Hp. apply updateTask_consistent; assumption.
  - destruct (save_then_startup w) as (w1 & d & Hsave & _ & Hstart).
    eexists. eexists. split; [exact Hsave|]. split; [exact Hstart|]. exact Hw.
Qed.

Lemma handlers_keep_consistency_witness :
  Forall consistent (tasks sample) /\
  (exists w',
     handle_all [Submit (js " Feed cat ") 3000 (js "0.4fzyo82mvyr") 3001;
                 Toggle (js "a1") true 4000;
                 CommitEdit (js "Buy tea") (js "b2");
                 DeleteClick (js "b2") true] sample = (Normal tt, w') /\
     Forall consistent (tasks w')) /\
  (forall id0 p, coherent p ->
     exists w', updateTask id0 p sample = (Normal tt, w') /\ Forall consistent (tasks w')) /\
  (exists w1 w2,
     saveTasks sample = (Normal tt, w1) /\
     startup (localStorage w1) = Some w2 /\
     Forall consistent (tasks w2)).
Proof.
  assert (H : Forall consistent (tasks sample))
    by (apply (bool_decide_unpack _); vm_compute; exact I).
  split; [exact H | apply handlers_keep_consistency; exact H].
Defined.

(** C6: for every task sequence, [saveTasks] writes its JSON text into the
    slot, [JSON.parse] of that text is the JSON value of the same sequence,
    [loadTasks] returns it, and a page loaded with that storage has a task
    sequence equal to the original: the same tasks, field for field, in the
    same order. *)
Theorem save_then_reload (w : World) :
  JSON_parse (JSON_stringify (json_of_tasks (tasks w))) = Normal (json_of_tasks (tasks w)) /\
  tasks_of_json (json_of_tasks (tasks w)) = Some (tasks w) /\
  exists w1 w2,
    saveTasks w = (Normal tt, w1) /\
    localStorage w1 !! STORAGE_KEY = Some (JSON_stringify (json_of_tasks (tasks w))) /\
    loadTasks w1 = (Normal (json_of_tasks (tasks w)), w1) /\
    startup (localStorage w1) = Some w2 /\
    tasks w2 = tasks w /\
    (forall i, tasks w2 !! i = tasks w !! i).
Proof.
  split; [apply JSON_parse_stringify, printable_json_of_tasks|].
  split; [apply tasks_of_json_of_tasks|].
  destruct (saveTasks_run w) as [d Hsave].
  destruct (save_then_startup w) as (w1 & d2 & Hsave' & Hload & Hstart).
  exists w1. eexists. split; [exact Hsave'|].
  rewrite Hsave in Hsave'. injection Hsave' as <-.
  split; [apply lookup_insert_eq|]. split; [exact Hload|]. split; [exact Hstart|].
  split; reflexivity.
Qed.



(** C8: for every snapshot, the two lists that [render] computes partition
    it. Every task of the snapshot is in exactly one of them; a task is in
    one of them exactly when it is in the snapshot; no task is in both; put
    together they are the snapshot up to order; and each of them keeps the
    order of the snapshot. These are the lists that [render] puts on the
    page. *)
Theorem pending_completed_partition (ts : list Task) :
  (forall t, t ∈ ts ->
     (t ∈ pending ts /\ (t ∉ completed_tasks ts)) \/
     ((t ∉ pending ts) /\ t ∈ completed_tasks ts)) /\
  (forall t, (t ∈ pending ts \/ t ∈ completed_tasks ts) <-> t ∈ ts) /\
  (forall t, ~ (t ∈ pending ts /\ t ∈ completed_tasks ts)) /\
  pending ts ++ completed_tasks ts ≡ₚ ts /\
  sublist (pending ts) ts /\
  sublist (completed_tasks ts) ts /\
  (forall w, tasks w = ts ->
     exists w', render w = (Normal tt, w') /\
       pendingList (dom w') = pending ts /\ completedList (dom w') = completed_tasks ts).
Proof.
  split; [|split; [|split; [|split; [|split; [|split]]]]].
  - intros t Ht. rewrite !pending_elem, !completed_elem.
    destruct (completed t); [right | left]; intuition congruence.
  - intros t. rewrite pending_elem, completed_elem.
    destruct (completed t); intuition congruence.
  - intros t. rewrite pending_elem, completed_elem. intuition congruence.
  - apply pending_completed_perm.
  - apply filter_sublist.
  - apply filter_sublist.
  - intros w <-. destruct (render_lists w) as (w' & Hrun & _ & Hp & Hc). eauto.
Qed.

(** C9: for every existing task id and every patch, [updateTask] succeeds and
    replaces only the first task with that id, by that task with the patch
    spread over it: the length of the sequence and the order of the ids are
    unchanged, every other position holds the task it held, and every task
    with a different id is unchanged in all its fields. *)
Theorem updateTask_frame (w : World) (id0 : jsstring) (p : Patch) :
  id0 ∈ (id <$> tasks w) ->
  exists w' i t,
    updateTask id0 p w = (Normal tt, w') /\
    first_with_id id0 (tasks w) i t /\
    tasks w' = <[i := spread t p]> (tasks w) /\
    length (tasks w') = length (tasks w) /\
    id <$> tasks w' = id <$> tasks w /\
    (forall j, j <> i -> tasks w' !! j = tasks w !! j) /\
    (forall j t', tasks w !! j = Some t' -> id t' <> id0 -> tasks w' !! j = Some t').
Proof.
  intros Hin. apply list_elem_of_fmap in Hin as (t0 & Hid0 & Hin).
  destruct (first_with_id_exists id0 (tasks w)) as (i & t & Hfirst); [eauto|].
  destruct (updateTask_found id0 p w i t Hfirst) as [d Hrun].
  eexists. exists i, t. split; [exact Hrun|]. split; [exact Hfirst|].
  destruct Hfirst as (Hi & Hid & _). simpl.
  assert (Hne : forall j, j <> i -> <[i := spread t p]> (tasks w) !! j = tasks w !! j).
  { intros j Hj. apply list_lookup_insert_ne. congruence. }
  repeat split.
  - apply length_insert.
  - rewrite list_fmap_insert. apply list_insert_id.
    rewrite list_lookup_fmap, Hi. reflexivity.
  - exact Hne.
  - intros j t' Hj Hne'. rewrite Hne; [exact Hj|].
    intros ->. congruence.
Qed.

Lemma updateTask_frame_witness :
  js "a1" ∈ (id <$> tasks sample) /\
  exists w' i t,
    updateTask (js "a1") (mkPatch None (Some true) (Some (Some 3000%Z))) sample
      = (Normal tt, w') /\
    first_with_id (js "a1") (tasks sample) i t /\
    tasks w' = <[i := spread t (mkPatch None (Some true) (Some (Some 3000%Z)))]> (tasks sample) /\
    length (tasks w') = length (tasks sample) /\
    id <$> tasks w' = id <$> tasks sample /\
    (forall j, j <> i -> tasks w' !! j = tasks sample !! j) /\
    (forall j t', tasks sample !! j = Some t' -> id t' <> js "a1" -> tasks w' !! j = Some t').
Proof.
  assert (H : js "a1" ∈ (id <$> tasks sample))
    by (apply (bool_decide_unpack _); vm_compute; exact I).
  split; [exact H | apply updateTask_frame; exact H].
Defined.

(** C10: for every input text whose trimmed form is not empty, the text of
    the task that submitting the form creates is the trimmed input: the input
    is that text with white space before and after it, and the text itself
    neither starts nor ends with white space. *)
Theorem add_stores_trimmed_text
    (w : World) (value : jsstring) (now : Z) (random36 : jsstring) (now_uid : Z) :
  trim value <> [] ->
  exists w' t pre post,
    handle (Submit value now random36 now_uid) w = (Normal tt, w') /\
    head (tasks w') = Some t /\
    text t = trim value /\
    value = pre ++ text t ++ post /\
    forallb is_space pre = true /\
    forallb is_space post = true /\
    (forall c, head (text t) = Some c -> is_space c = false) /\
    (forall c, last (text t) = Some c -> is_space c = false).
Proof.
  intros Hne. destruct (trim value) as [|c r] eqn:Htrim; [congruence|].
  destruct (add_nonblank_run value now random36 now_uid w c r Htrim) as (w' & Hrun & Hts & _).
  destruct (trim_split value) as (pre & post & Hsplit & Hpre & Hpost).
  exists w'. eexists. exists pre, post. split; [exact Hrun|].
  rewrite Hts. cbn [head text]. rewrite <- Htrim.
  repeat split; trivial; intros c'; [apply trim_head | apply trim_last].
Qed.

Lemma add_stores_trimmed_text_witness :
  trim (js " Feed cat ") <> [] /\
  exists w' t pre post,
    handle (Submit (js " Feed cat ") 3000 (js "0.4fzyo82mvyr") 3001) sample = (Normal tt, w') /\
    head (tasks w') = Some t /\
    text t = trim (js " Feed cat ") /\
    js " Feed cat " = pre ++ text t ++ post /\
    forallb is_space pre = true /\
    forallb is_space post = true /\
    (forall c, head (text t) = Some c -> is_space c = false) /\
    (forall c, last (text t) = Some c -> is_space c = false).
Proof.
  assert (H : trim (js " Feed cat ") <> []) by (vm_compute; discriminate).
  split; [exact H | apply add_stores_trimmed_text; exact H].
Defined.

(** * Further properties of the script *)

(** ** What a handler does to the state *)

Lemma length_completed ts :
  (Z.of_nat (length ts) - Z.of_nat (length (List.filter (fun t => negb (completed t)) ts)))%Z
  = Z.of_nat (length (completed_tasks ts)).
Proof.
  unfold completed_tasks.
  assert (H : (length (List.filter (fun t => negb (completed t)) ts)
               + length (List.filter (fun t => completed t) ts) = length ts)%nat).
  { induction ts as [|t ts IH]; [reflexivity|]. simpl. destruct (completed t); simpl; lia. }
  lia.
Qed.

Lemma counts_lengths ts :
  counts ts = mkCounts (Z.of_nat (length ts)) (Z.of_nat (length (pending ts)))
                (Z.of_nat (length (completed_tasks ts))).
Proof. unfold counts. rewrite length_completed. reflexivity. Qed.

(** Closes the goal that a freshly drawn page shows its tasks. *)
Ltac drawn :=
  unfold page_shows; run; cbn [snd]; run;
  rewrite ?counts_lengths; cbn [total n_pending n_completed];
  rewrite ?length_completed; repeat split; reflexivity.

(** A handler returns normally. Either it leaves the tasks, the storage and
    what the page shows alone, or it puts the new sequence in [tasks], its
    text in the slot and the sequence on the page. *)
Lemma handle_effect e w :
  exists w',
    handle e w = (Normal tt, w') /\
    match next_tasks e (tasks w) with
    | None =>
        tasks w' = tasks w /\ localStorage w' = localStorage w /\
        (page_shows w -> page_shows w')
    | Some ts' =>
        tasks w' = ts' /\
        localStorage w' = <[STORAGE_KEY := JSON_stringify (json_of_tasks ts')]> (localStorage w) /\
        alerts w' = alerts w /\
        page_shows w'
    end.
Proof.
  destruct w as [ts ls d al].
  cbn [tasks localStorage].
  destruct e as [value now r n | id0 checked now | value id0 | id0 c | c];
    cbv [next_tasks]; run;
    repeat (match goal with
            | |- context [trim ?v] => destruct (trim v)
            | |- context [(?i =? -1)%Z] => destruct (Z.eqb_spec i (-1))
            | |- context [if ?c then _ else _] => is_var c; destruct c
            | |- context [match ?l with [] => _ | _ :: _ => _ end] => is_var l; destruct l
            end; run);
    (eexists; split; [reflexivity|]);
    cbn [tasks localStorage alerts dom];
    try (split; [reflexivity | split; [reflexivity | intros Hp; exact Hp]]);
    (split; [reflexivity | split; [reflexivity | split; [reflexivity|]]]);
    drawn.
Qed.

(** An invariant that every handler keeps holds after any run of actions,
    and every run returns normally. *)
Lemma handle_all_invariant (I : World -> Prop) :
  (forall e w w', handle e w = (Normal tt, w') -> I w -> I w') ->
  forall es w, I w -> exists w', handle_all es w = (Normal tt, w') /\ I w'.
Proof.
  intros Hstep es. induction es as [|e es IH]; intros w Hw; cbn [handle_all].
  - exists w. auto.
  - destruct (handle_effect e w) as (w1 & Hrun & _).
    destruct (IH w1 (Hstep e w w1 Hrun Hw)) as (w2 & Hrun2 & Hw2).
    exists w2. split; [|exact Hw2]. unfold mbind, M_bind. rewrite Hrun. exact Hrun2.
Qed.

Lemma handle_tasks e w w' :
  handle e w = (Normal tt, w') ->
  tasks w' = match next_tasks e (tasks w) with Some ts' => ts' | None => tasks w end.
Proof.
  intros Hrun. destruct (handle_effect e w) as (w1 & Hrun1 & Heff).
  rewrite Hrun in Hrun1. injection Hrun1 as <-.
  destruct (next_tasks e (tasks w)); tauto.
Qed.

(** ** Lists under the operations of the script *)

Lemma alter_spread_ids p i (ts : list Task) :
  id <$> alter (fun t => spread t p) i ts = id <$> ts.
Proof.
  rewrite (list_fmap_alter _ _ (fun x => x)).
  - apply list_alter_id. reflexivity.
  - apply Forall_forall. reflexivity.
Qed.

Lemma elem_of_alter {A} (f : A -> A) i (l : list A) x :
  x ∈ alter f i l -> x ∈ l \/ exists y, y ∈ l /\ x = f y.
Proof.
  revert i. induction l as [|a l IH]; intros i Hx; [left; exact Hx|].
  destruct i as [|i]; cbn [alter list_alter] in Hx; apply elem_of_cons in Hx as [-> | Hx].
  - right. exists a. split; [left | reflexivity].
  - left. right. exact Hx.
  - left. left.
  - destruct (IH i Hx) as [H | (y & Hy & ->)]; [left; right; exact H|].
    right. exists y. split; [right; exact Hy | reflexivity].
Qed.

Lemma filter_elem {A} (f : A -> bool) (l : list A) x :
  x ∈ List.filter f l <-> x ∈ l /\ f x = true.
Proof. rewrite !list_elem_of_In. apply filter_In. Qed.

Lemma filter_is_sublist {A} (f : A -> bool) (l : list A) : sublist (List.filter f l) l.
Proof.
  induction l as [|a l IH]; simpl; [constructor|].
  destruct (f a); [apply sublist_skip | apply sublist_cons]; exact IH.
Qed.

(** ** The page and the storage over time *)

Lemma startup_page_shows storage w : startup storage = Some w -> page_shows w.
Proof.
  unfold startup.
  destruct (loadTasks_never_throws (mkWorld [] storage blank_page [])) as [v Hload].
  rewrite Hload. destruct (tasks_of_json v) as [ts|]; [|discriminate].
  cbn [mbind option_bind]. intros [= <-].
  drawn.
Qed.

(** X1. The page never goes stale: once the script has started, after whatever
    the user does, the two lists are the pending and the completed tasks of
    [tasks] in order, each placeholder is shown exactly when its list is
    empty, and the counters are the lengths of [tasks] and of the two
    lists. *)
Theorem page_always_shows_tasks storage w es :
  startup storage = Some w ->
  page_shows w /\
  exists w', handle_all es w = (Normal tt, w') /\ page_shows w'.
Proof.
  intros Hstart. apply startup_page_shows in Hstart. split; [exact Hstart|].
  apply (handle_all_invariant page_shows); [|exact Hstart].
  intros e w0 w1 Hrun Hw0. destruct (handle_effect e w0) as (w2 & Hrun2 & Heff).
  rewrite Hrun in Hrun2. injection Hrun2 as <-.
  destruct (next_tasks e (tasks w0)); tauto.
Qed.

Lemma page_always_shows_tasks_witness :
  startup ∅ = Some empty_page /\
  (page_shows empty_page /\
   exists w',
     handle_all [Submit (js " Feed cat ") 3000 (js "0.4fzyo82mvyr") 3001;
                 Toggle (js "4fzyo82m2bd") true 4000;
                 ClearAllClick false] empty_page = (Normal tt, w') /\
     page_shows w').
Proof.
  assert (H : startup ∅ = Some empty_page) by (vm_compute; reflexivity).
  split; [exact H | apply (page_always_shows_tasks ∅); exact H].
Defined.

(** X2. The script writes to one key only: every other key of the storage keeps
    its value, or stays absent, whatever the user does. *)
Theorem other_keys_untouched (k : jsstring) (es : list event) (w : World) :
  k <> STORAGE_KEY ->
  exists w', handle_all es w = (Normal tt, w') /\ localStorage w' !! k = localStorage w !! k.
Proof.
  intros Hk.
  apply (handle_all_invariant (fun w' => localStorage w' !! k = localStorage w !! k));
    [|reflexivity].
  intros e w0 w1 Hrun Hw0. rewrite <- Hw0.
  destruct (handle_effect e w0) as (w2 & Hrun2 & Heff).
  rewrite Hrun in Hrun2. injection Hrun2 as <-.
  destruct (next_tasks e (tasks w0)).
  - destruct Heff as (_ & -> & _). apply lookup_insert_ne. congruence.
  - destruct Heff as (_ & -> & _). reflexivity.
Qed.

Lemma other_keys_untouched_witness :
  js "theme" <> STORAGE_KEY /\
  exists w',
    handle_all [Submit (js " Feed cat ") 3000 (js "0.4fzyo82mvyr") 3001;
                DeleteClick (js "a1") true]
      (mkWorld [dog; milk] {[js "theme" := js "dark"]} blank_page []) = (Normal tt, w') /\
    localStorage w' !! js "theme"
    = localStorage (mkWorld [dog; milk] {[js "theme" := js "dark"]} blank_page []) !! js "theme".
Proof.
  assert (H : js "theme" <> STORAGE_KEY) by (vm_compute; discriminate).
  split; [exact H | apply other_keys_untouched; exact H].
Defined.

(** ** The counters *)

(** X4. [updateCounts] counts the pending tasks and takes the completed ones as
    the rest: the number it shows as completed is the number of tasks with
    [completed] true, the two numbers add up to the total, and neither the
    tasks, the storage nor the two lists are touched. *)
Theorem updateCounts_shows_lengths (w : World) :
  exists w',
    updateCounts w = (Normal tt, w') /\
    tasks w' = tasks w /\ localStorage w' = localStorage w /\
    pendingList (dom w') = pendingList (dom w) /\
    completedList (dom w') = completedList (dom w) /\
    countTotal (dom w') = Number_toString 10 (Z.of_nat (length (tasks w))) /\
    countPending (dom w') = Number_toString 10 (Z.of_nat (length (pending (tasks w)))) /\
    countCompleted (dom w')
      = Number_toString 10 (Z.of_nat (length (completed_tasks (tasks w)))) /\
    badgePending (dom w') = countPending (dom w') /\
    badgeCompleted (dom w') = countCompleted (dom w') /\
    (n_pending (counts (tasks w)) + n_completed (counts (tasks w)))%Z = total (counts (tasks w)) /\
    (0 <= n_completed (counts (tasks w)))%Z.
Proof.
  destruct w as [ts ls d al]. eexists. split; [run; reflexivity|].
  cbn [tasks localStorage dom pendingList completedList countTotal countPending
       countCompleted badgePending badgeCompleted].
  rewrite counts_lengths. cbn [total n_pending n_completed].
  assert (Hsum : (length (pending ts) + length (completed_tasks ts) = length ts)%nat).
  { pose proof (counts_lengths ts) as H. unfold counts in H. injection H as H. 
    unfold pending, completed_tasks in *. lia. }
  repeat split; lia.
Qed.

(** ** Deleting and clearing *)

(** X5. A confirmed delete removes every task with that id, also when several
    have it, and nothing else: the other tasks stay, in their order. For an
    id that no task has the sequence is unchanged, and it is saved all the
    same. A delete that is not confirmed changes nothing at all. *)
Theorem delete_click_removes_id (w : World) (id0 : jsstring) :
  delete_click id0 false w = (Normal tt, w) /\
  exists w',
    delete_click id0 true w = (Normal tt, w') /\
    (forall t, t ∈ tasks w' <-> t ∈ tasks w /\ id t <> id0) /\
    (id0 ∉ (id <$> tasks w')) /\
    sublist (tasks w') (tasks w) /\
    (id0 ∉ (id <$> tasks w) -> tasks w' = tasks w) /\
    localStorage w' = <[STORAGE_KEY := JSON_stringify (json_of_tasks (tasks w'))]> (localStorage w) /\
    alerts w' = alerts w /\
    page_shows w'.
Proof.
  split; [reflexivity|].
  destruct (handle_effect (DeleteClick id0 true) w) as (w' & Hrun & Hts & Hls & Hal & Hpage).
  cbn [next_tasks handle] in *. exists w'. split; [exact Hrun|].
  assert (Hin : forall t, t ∈ tasks w' <-> t ∈ tasks w /\ id t <> id0).
  { intros t. rewrite Hts, filter_elem, negb_true_iff, bool_decide_eq_false. tauto. }
  split; [exact Hin|]. split; [|split; [|split]].
  - intros Hid. apply list_elem_of_fmap in Hid as (t & -> & Ht).
    apply Hin in Ht as [_ Hne]. congruence.
  - rewrite Hts. apply filter_is_sublist.
  - intros Hnot. rewrite Hts. apply forallb_filter_id, forallb_forall.
    intros t Ht. apply negb_true_iff, bool_decide_eq_false. intros Hid. apply Hnot.
    apply list_elem_of_fmap. exists t. split; [congruence | apply list_elem_of_In, Ht].
  - rewrite <- Hts in Hls. auto.
Qed.

(** X6. Clear all asks nothing and writes nothing when there is no task, and
    changes nothing when the user declines. Confirmed on a sequence that is
    not empty, it empties the sequence and leaves the text of the empty array
    in the slot, from which the page loads again with no task. *)
Theorem clear_all_click_empties (w : World) (confirmed : bool) :
  (tasks w = [] -> clear_all_click confirmed w = (Normal tt, w)) /\
  clear_all_click false w = (Normal tt, w) /\
  (tasks w <> [] ->
   exists w' w2,
     clear_all_click true w = (Normal tt, w') /\
     tasks w' = [] /\
     localStorage w' = <[STORAGE_KEY := js "[]"]> (localStorage w) /\
     page_shows w' /\
     countTotal (dom w') = js "0" /\
     startup (localStorage w') = Some w2 /\ tasks w2 = []).
Proof.
  destruct w as [ts ls d al]. cbn [tasks]. split; [|split].
  - intros ->. reflexivity.
  - destruct ts; reflexivity.
  - intros Hne. destruct ts as [|t ts]; [congruence|].
    destruct (handle_effect (ClearAllClick true) (mkWorld (t :: ts) ls d al))
      as (w' & Hrun & Hts & Hls & _ & Hpage).
    cbn [next_tasks handle tasks localStorage] in *.
    destruct (startup_saved (localStorage w') []) as [d2 Hstart].
    { rewrite Hls. apply lookup_insert_eq. }
    exists w'. eexists. split; [exact Hrun|]. split; [exact Hts|]. split; [exact Hls|].
    split; [exact Hpage|]. split; [|split; [exact Hstart | reflexivity]].
    destruct Hpage as (_ & _ & _ & _ & -> & _). rewrite Hts. reflexivity.
Qed.

(** ** Toggling twice *)

Lemma first_with_id_insert id0 ts i t t' :
  first_with_id id0 ts i t -> id t' = id0 -> first_with_id id0 (<[i := t']> ts) i t'.
Proof.
  intros (Hi & Hid & Hlt) Hid'. split; [|split].
  - apply list_lookup_insert_eq. eapply lookup_lt_Some, Hi.
  - exact Hid'.
  - intros j u Hj Hu. rewrite list_lookup_insert_ne in Hu by lia. eapply Hlt; eauto.
Qed.

(** X7. Of two changes of the same checkbox the second one decides: the task
    sequence after both is the one the second alone would give. For a task
    that is there, the first with that id ends with [completed] as the box
    was at the second change and with [completedAt] the clock of that change
    or [null]; a time an earlier tick recorded is not kept. *)
Theorem toggle_last_wins (w : World) (id0 : jsstring) (c1 c2 : bool) (n1 n2 : Z) :
  exists w1 w12 w2,
    toggle id0 c1 n1 w = (Normal tt, w1) /\
    toggle id0 c2 n2 w1 = (Normal tt, w12) /\
    toggle id0 c2 n2 w = (Normal tt, w2) /\
    tasks w12 = tasks w2 /\
    (forall i t, first_with_id id0 (tasks w) i t ->
       tasks w12 !! i
       = Some (mkTask (id t) (text t) (createdAt t) c2 (if c2 then Some n2 else None))).
Proof.
  unfold toggle.
  set (p1 := mkPatch None (Some c1) (Some (if c1 then Some n1 else None))).
  set (p2 := mkPatch None (Some c2) (Some (if c2 then Some n2 else None))).
  destruct (findIndex_spec (fun t => bool_decide (id t = id0)) (tasks w))
    as [[Hidx Hall] | (i & t & Hidx & Hi & Ht & Hlt)].
  - exists w, w, w. rewrite !updateTask_absent by exact Hidx.
    repeat split; try reflexivity.
    intros i t (Hi & Hid & _). rewrite Forall_forall in Hall.
    specialize (Hall t (list_elem_of_lookup_2 _ _ _ Hi)).
    apply bool_decide_eq_false in Hall. contradiction.
  - assert (Hfirst : first_with_id id0 (tasks w) i t).
    { split; [exact Hi|]. split; [apply bool_decide_eq_true in Ht; exact Ht|].
      intros j u Hj Hu. specialize (Hlt j u Hj Hu).
      apply bool_decide_eq_false in Hlt. exact Hlt. }
    destruct (updateTask_found id0 p1 w i t Hfirst) as [d1 Hrun1].
    destruct (updateTask_found id0 p2 w i t Hfirst) as [d2 Hrun2].
    assert (Hfirst1 : first_with_id id0 (<[i := spread t p1]> (tasks w)) i (spread t p1)).
    { apply (first_with_id_insert id0 (tasks w) i t);
        [exact Hfirst | exact (proj1 (proj2 Hfirst))]. }
    match type of Hrun1 with
    | _ = (_, ?w1) =>
        destruct (updateTask_found id0 p2 w1 i (spread t p1) Hfirst1) as [d12 Hrun12]
    end.
    eexists. eexists. eexists. split; [exact Hrun1|].
    split; [exact Hrun12|]. split; [exact Hrun2|]. cbn [tasks].
    rewrite list_insert_insert_eq. split; [reflexivity|].
    intros j u Hfirst'.
    assert (j = i) as ->.
    { pose proof (first_with_id_findIndex _ _ _ _ Hfirst') as Hj. rewrite Hidx in Hj. lia. }
    assert (u = t) as -> by (destruct Hfirst' as (Hu & _); congruence).
    apply list_lookup_insert_eq. eapply lookup_lt_Some, Hi.
Qed.

(** ** Where a task comes from *)

Lemma next_tasks_origin e ts ts' t' :
  next_tasks e ts = Some ts' -> t' ∈ ts' -> descends ts t' \/ born [e] t'.
Proof.
  assert (Hself : forall t, t ∈ ts -> descends ts t) by (intros t Ht; exists t; auto).
  assert (Halter : forall p i, t' ∈ alter (fun t => spread t p) i ts -> descends ts t').
  { intros p i Hin. apply elem_of_alter in Hin as [Hin | (t & Ht & ->)]; [auto|].
    exists t. auto. }
  destruct e as [value now r n | id0 checked now | value id0 | id0 c | c]; cbn [next_tasks].
  - destruct (trim value); [discriminate|]. intros [= <-] Hin.
    apply elem_of_cons in Hin as [-> | Hin]; [right | left; auto].
    exists value, now, r, n. split; [left | split; reflexivity].
  - destruct (_ =? _)%Z; [discriminate|]. intros [= <-] Hin. left. eapply Halter, Hin.
  - destruct (trim value); [discriminate|].
    destruct (_ =? _)%Z; [discriminate|]. intros [= <-] Hin. left. eapply Halter, Hin.
  - destruct c; [|discriminate]. intros [= <-] Hin. left. apply Hself.
    apply filter_elem in Hin. tauto.
  - destruct ts; [discriminate|]. destruct c; [|discriminate].
    intros [= <-] Hin. inversion Hin.
Qed.

(** X8. The id and the creation time of a task never change, and no action but a
    submission makes a task: after whatever the user does, every task of the
    sequence has the id and the [createdAt] of a task that was there before,
    or it has the id that one of the submissions generated and the clock of
    that submission as [createdAt]. *)
Theorem tasks_keep_id_and_createdAt (es : list event) (w : World) :
  exists w',
    handle_all es w = (Normal tt, w') /\
    forall t', t' ∈ tasks w' -> descends (tasks w) t' \/ born es t'.
Proof.
  revert w. induction es as [|e es IH]; intros w; cbn [handle_all].
  - exists w. split; [reflexivity|]. intros t' Ht. left. exists t'. auto.
  - destruct (handle_effect e w) as (w1 & Hrun & Heff).
    destruct (IH w1) as (w2 & Hrun2 & Horigin).
    exists w2. split; [unfold mbind, M_bind; rewrite Hrun; exact Hrun2|].
    assert (Hborn : forall t es', born es' t -> born (e :: es') t).
    { intros t es' (v & now & r & n & Hin & H). exists v, now, r, n. split; [right|]; auto. }
    assert (Hone : forall t, born [e] t -> born (e :: es) t).
    { intros t (v & now & r & n & Hin & H). exists v, now, r, n. split; [|exact H].
      apply list_elem_of_singleton in Hin as ->. left. }
    intros t' Ht'. destruct (Horigin t' Ht') as [(t1 & Ht1 & Hid & Hcr) | Hb]; [|auto].
    destruct (next_tasks e (tasks w)) as [ts'|] eqn:Hnext.
    + destruct Heff as (Hts & _). rewrite Hts in Ht1.
      destruct (next_tasks_origin e (tasks w) ts' t1 Hnext Ht1)
        as [(t0 & Ht0 & Hid0 & Hcr0) | (v & now & r & n & Hin & Hid1 & Hcr1)].
      * left. exists t0. split; [exact Ht0|]. split; congruence.
      * right. apply Hone. exists v, now, r, n. split; [exact Hin|]. split; congruence.
    + destruct Heff as (Hts & _). rewrite Hts in Ht1. left. exists t1. auto.
Qed.

(** ** The texts and the ids *)

Lemma trimStart_fixed s :
  (forall c, head s = Some c -> is_space c = false) -> trimStart s = s.
Proof. destruct s as [|c r]; [reflexivity|]. intros H. simpl. rewrite (H c); reflexivity. Qed.

Lemma trim_fixed s :
  (forall c, head s = Some c -> is_space c = false) ->
  (forall c, last s = Some c -> is_space c = false) ->
  trim s = s.
Proof.
  intros Hhead Hlast. unfold trim, trimEnd. rewrite (trimStart_fixed s Hhead).
  rewrite trimStart_fixed; [apply reverse_involutive|].
  intros c. rewrite head_reverse. apply Hlast.
Qed.

Lemma trim_trim s : trim (trim s) = trim s.
Proof. apply trim_fixed; intros c; [apply trim_head | apply trim_last]. Qed.

Lemma next_tasks_tidy e ts ts' :
  Forall tidy ts -> next_tasks e ts = Some ts' -> Forall tidy ts'.
Proof.
  intros Hts.
  assert (Hkeep : forall p i, p_text p = None ->
            Forall tidy (alter (fun t => spread t p) i ts)).
  { intros p i Hp. apply Forall_alter; [exact Hts|]. intros t _ Ht.
    unfold tidy, spread. cbn [text]. rewrite Hp. exact Ht. }
  assert (Hset : forall value c r i, trim value = c :: r ->
            Forall tidy (alter (fun t => spread t (mkPatch (Some (c :: r)) None None)) i ts)).
  { intros value c r i Htrim. apply Forall_alter; [exact Hts|]. intros t _ _.
    unfold tidy, spread. cbn [text p_text default].
    split; [discriminate | rewrite <- Htrim; apply trim_trim]. }
  destruct e as [value now r n | id0 checked now | value id0 | id0 c | c]; cbn [next_tasks].
  - destruct (trim value) as [|c r'] eqn:Htrim; [discriminate|]. intros [= <-].
    constructor; [|exact Hts]. unfold tidy. cbn [text].
    split; [discriminate | rewrite <- Htrim; apply trim_trim].
  - destruct (_ =? _)%Z; [discriminate|]. intros [= <-]. apply Hkeep. reflexivity.
  - destruct (trim value) as [|c r'] eqn:Htrim; [discriminate|].
    destruct (_ =? _)%Z; [discriminate|]. intros [= <-]. eapply Hset, Htrim.
  - destruct c; [|discriminate]. intros [= <-].
    rewrite Forall_forall in *. intros t Ht. apply Hts. apply filter_elem in Ht. tauto.
  - destruct ts; [discriminate|]. destruct c; [|discriminate]. intros [= <-]. constructor.
Qed.

(** X9. No action of the page leaves a task without text: if the text of every
    task is not empty and has no white space at its ends, that is still so
    after whatever the user does. Submitting and editing store trimmed text
    and refuse a text that trims to nothing; the other actions do not touch
    the text. *)
Theorem texts_stay_tidy (es : list event) (w : World) :
  Forall tidy (tasks w) ->
  exists w', handle_all es w = (Normal tt, w') /\ Forall tidy (tasks w').
Proof.
  apply (handle_all_invariant (fun w => Forall tidy (tasks w))).
  intros e w0 w1 Hrun Hw0. rewrite (handle_tasks e w0 w1 Hrun).
  destruct (next_tasks e (tasks w0)) as [ts'|] eqn:Hnext; cbv beta iota; [|exact Hw0].
  eapply next_tasks_tidy; eauto.
Qed.

Lemma texts_stay_tidy_witness :
  Forall tidy (tasks sample) /\
  exists w',
    handle_all [Submit (js " Feed cat ") 3000 (js "0.4fzyo82mvyr") 3001;
                CommitEdit (js "  Buy tea") (js "a1");
                CommitEdit (js "   ") (js "b2");
                Toggle (js "b2") true 4000] sample = (Normal tt, w') /\
    Forall tidy (tasks w').
Proof.
  assert (H : Forall tidy (tasks sample))
    by (apply (bool_decide_unpack _); vm_compute; exact I).
  split; [exact H | apply texts_stay_tidy; exact H].
Defined.

(** X10. The script never checks a generated id against the ids in use. From a
    sequence with distinct ids an action leaves the ids distinct exactly when
    it is not a submission of text that is kept whose generated id is taken:
    toggling, editing, deleting and clearing never repeat an id, and adding
    repeats one when [uid()] returns one that a task already has. *)
Theorem ids_stay_distinct (e : event) (w : World) :
  NoDup (id <$> tasks w) ->
  exists w',
    handle e w = (Normal tt, w') /\
    (NoDup (id <$> tasks w') <-> ~ repeats_id e (tasks w)).
Proof.
  intros Hnd. destruct (handle_effect e w) as (w' & Hrun & _).
  exists w'. split; [exact Hrun|]. rewrite (handle_tasks e w w' Hrun).
  destruct e as [value now r n | id0 checked now | value id0 | id0 c | c];
    cbn [next_tasks repeats_id].
  - destruct (trim value) as [|c r'] eqn:Htrim; cbv beta iota.
    + split; [intros _ [H _]; congruence | intros _; exact Hnd].
    + rewrite fmap_cons, NoDup_cons. cbn [id]. split.
      * intros [Hnot _] [_ Hin]. contradiction.
      * intros Hnot. split; [|exact Hnd]. intros Hin. apply Hnot. split; [discriminate | exact Hin].
  - destruct (_ =? _)%Z; cbv beta iota; rewrite ?alter_spread_ids; tauto.
  - destruct (trim value); [cbv beta iota; tauto|].
    destruct (_ =? _)%Z; cbv beta iota; rewrite ?alter_spread_ids; tauto.
  - destruct c; cbv beta iota; [|tauto]. split; [tauto|]. intros _.
    eapply sublist_NoDup; [exact Hnd|]. apply fmap_sublist, filter_is_sublist.
  - destruct (tasks w); [cbv beta iota; tauto|]. destruct c; cbv beta iota; [|tauto].
    split; [tauto|]. intros _. constructor.
Qed.

Lemma ids_stay_distinct_witness :
  NoDup (id <$> tasks sample) /\
  exists w',
    handle (Submit (js " Feed cat ") 3000 (js "0.a1zzzzzzzzz") 3001) sample = (Normal tt, w') /\
    (NoDup (id <$> tasks w') <->
     ~ repeats_id (Submit (js " Feed cat ") 3000 (js "0.a1zzzzzzzzz") 3001) (tasks sample)).
Proof.
  assert (H : NoDup (id <$> tasks sample))
    by (apply (bool_decide_unpack _); vm_compute; exact I).
  split; [exact H | apply ids_stay_distinct; exact H].
Defined.

(** ** Loading what is not there *)

(** X11. When the slot is missing, holds the empty string or holds a text that
    [JSON.parse] rejects, [loadTasks] returns the empty array without
    throwing and without touching the state, and the page starts with no task:
    both placeholders shown and every counter at zero. *)
Theorem loadTasks_falls_back (w : World) :
  (localStorage w !! STORAGE_KEY = None \/
   localStorage w !! STORAGE_KEY = Some [] \/
   exists text e, localStorage w !! STORAGE_KEY = Some text /\ JSON_parse text = Throw e) ->
  loadTasks w = (Normal (JArr []), w) /\
  startup (localStorage w)
  = Some (mkWorld [] (localStorage w) (dom empty_page) []).
Proof.
  intros Hcase.
  assert (Hload : forall w0, localStorage w0 = localStorage w ->
                             loadTasks w0 = (Normal (JArr []), w0)).
  { intros w0 Hls. destruct Hcase as [H | [H | (text & e & H & Hparse)]].
    - apply loadTasks_absent. rewrite Hls. auto.
    - apply loadTasks_absent. rewrite Hls. auto.
    - apply (loadTasks_unparseable w0 text e); [rewrite Hls; exact H | exact Hparse]. }
  split; [apply Hload; reflexivity|].
  unfold startup. rewrite Hload by reflexivity. reflexivity.
Qed.

Lemma loadTasks_falls_back_witness :
  (localStorage (mkWorld [] {[STORAGE_KEY := js "[{]"]} blank_page []) !! STORAGE_KEY = None \/
   localStorage (mkWorld [] {[STORAGE_KEY := js "[{]"]} blank_page []) !! STORAGE_KEY = Some [] \/
   exists text e,
     localStorage (mkWorld [] {[STORAGE_KEY := js "[{]"]} blank_page []) !! STORAGE_KEY = Some text /\
     JSON_parse text = Throw e) /\
  loadTasks (mkWorld [] {[STORAGE_KEY := js "[{]"]} blank_page [])
  = (Normal (JArr []), mkWorld [] {[STORAGE_KEY := js "[{]"]} blank_page []) /\
  startup (localStorage (mkWorld [] {[STORAGE_KEY := js "[{]"]} blank_page []))
  = Some (mkWorld [] (localStorage (mkWorld [] {[STORAGE_KEY := js "[{]"]} blank_page []))
            (dom empty_page) []).
Proof.
  assert (H : localStorage (mkWorld [] {[STORAGE_KEY := js "[{]"]} blank_page []) !! STORAGE_KEY = None \/
   localStorage (mkWorld [] {[STORAGE_KEY := js "[{]"]} blank_page []) !! STORAGE_KEY = Some [] \/
   exists text e,
     localStorage (mkWorld [] {[STORAGE_KEY := js "[{]"]} blank_page []) !! STORAGE_KEY = Some text /\
     JSON_parse text = Throw e).
  { right. right. exists (js "[{]"), "SyntaxError"%string.
    split; vm_compute; reflexivity. }
  split; [exact H | apply loadTasks_falls_back; exact H].
Defined.

(** ** Alerts *)

(** X14. The page alerts in one case only: an edit whose text trims to nothing
    gets the message [Task cannot be empty.]. Every other action, a
    submission of blank text included, adds no alert. *)
Theorem alert_only_for_blank_edit (e : event) (w : World) :
  exists w',
    handle e w = (Normal tt, w') /\
    alerts w' =
      alerts w ++
      match e with
      | CommitEdit value _ =>
          match trim value with
          | [] => [js "Task cannot be empty."]
          | _ :: _ => []
          end
      | _ => []
      end.
Proof.
  destruct w as [ts ls d al].
  destruct e as [value now r n | id0 checked now | value id0 | id0 c | c]; run;
    repeat (match goal with
            | |- context [trim ?v] => destruct (trim v)
            | |- context [(?i =? -1)%Z] => destruct (Z.eqb_spec i (-1))
            | |- context [if ?c then _ else _] => is_var c; destruct c
            | |- context [match ?l with [] => _ | _ :: _ => _ end] => is_var l; destruct l
            end; run);
    (eexists; split; [reflexivity|]); cbn [alerts]; rewrite ?app_nil_r; reflexivity.
Qed.

(** ** Reloading, at a concrete page *)


(** ** The ids *)

Section radix.

Variable radix : N.
Hypothesis radix_ge_2 : 2 <= radix.

(** Fuel beyond the number of bits changes nothing. *)
Lemma digits_fuel_enough f : forall g n acc,
  (f <= g)%nat -> n < 2 ^ N.of_nat f ->
  digits_fuel (S g) radix n acc = digits_fuel (S f) radix n [] ++ acc.
Proof.
  induction f as [|f IH]; intros g n acc Hfg Hn.
  - assert (n = 0) as -> by (simpl in Hn; lia).
    rewrite !digits_fuel_S. destruct (N.ltb_spec 0 radix); [reflexivity | lia].
  - destruct g as [|g]; [lia|]. rewrite (digits_fuel_S (S g)), (digits_fuel_S (S f)).
    destruct (N.ltb_spec n radix) as [Hlt | Hge]; [reflexivity|].
    assert (Hdiv : n / radix < 2 ^ N.of_nat f).
    { rewrite Nat2N.inj_succ, N.pow_succ_r' in Hn.
      apply N.Div0.div_lt_upper_bound. nia. }
    rewrite (IH g (n / radix) _ ltac:(lia) Hdiv).
    rewrite (IH f (n / radix) [_] ltac:(lia) Hdiv).
    rewrite <- app_assoc. reflexivity.
Qed.

(** The digits of a number are those of its quotient by the radix and then
    the digit of the remainder. *)
Lemma digits_unfold n :
  digits radix n =
    if n <? radix then [digit_char (n mod radix)]
    else digits radix (n / radix) ++ [digit_char (n mod radix)].
Proof.
  unfold digits at 1. rewrite digits_fuel_S.
  destruct (N.ltb_spec n radix) as [Hlt | Hge]; [reflexivity|].
  assert (Hsize : n / radix < 2 ^ N.of_nat (N.to_nat (N.size (n / radix))))
    by (rewrite N2Nat.id; apply N.size_gt).
  unfold digits.
  destruct (N.to_nat (N.size n)) as [|k] eqn:Hk.
  - assert (N.size n = 0) by lia. destruct n; [lia | discriminate].
  - apply digits_fuel_enough; [|exact Hsize].
    assert (N.size (n / radix) < N.size n); [|lia].
    assert (Hn : n <> 0) by lia.
    assert (Hq : n / radix < n) by (apply N.div_lt; lia).
    destruct (N.eq_dec (n / radix) 0) as [-> | Hq0].
    { destruct n; [lia | simpl; lia]. }
    rewrite !N.size_log2 by assumption.
    assert (N.log2 (n / radix) < N.log2 n); [|lia].
    assert (Hhalf : n / radix <= n / 2).
    { apply N.div_le_compat_l. lia. }
    assert (N.log2 (n / 2) < N.log2 n).
    { rewrite <- N.div2_div, N.div2_spec, N.log2_shiftr.
      assert (0 < N.log2 n); [|lia].
      apply N.log2_pos. 
      assert (2 <= n); [|lia].
      destruct (N.lt_ge_cases n 2); [|assumption].
      assert (n / radix = 0); [apply N.div_small; lia | contradiction]. }
    pose proof (N.log2_le_mono _ _ Hhalf). lia.
Qed.

Lemma digits_last n : exists pre, digits radix n = pre ++ [digit_char (n mod radix)].
Proof.
  rewrite digits_unfold. destruct (n <? radix); [exists [] | eexists]; reflexivity.
Qed.

End radix.

Section uid_facts.

Lemma digit_of_remainder n a b c :
  a <> 0 -> b <> 0 -> ((n mod (a * b * c)) / a) mod b = (n / a) mod b.
Proof.
  intros Ha Hb. rewrite (N.Div0.div_mod n (a * b * c)) at 2.
  replace (a * b * c * (n / (a * b * c))) with (b * c * (n / (a * b * c)) * a) by lia.
  rewrite N.div_add_l by exact Ha.
  replace (b * c * (n / (a * b * c)) + n mod (a * b * c) / a)
    with (n mod (a * b * c) / a + c * (n / (a * b * c)) * b) by lia.
  symmetry. apply N.Div0.mod_add.
Qed.

(** The last four base-36 digits of a number of at least four digits. *)
Lemma digits36_last4 n :
  46656 <= n ->
  exists pre,
    digits 36 n =
      pre ++ [digit_char (n / 46656 mod 36); digit_char (n / 1296 mod 36);
              digit_char (n / 36 mod 36); digit_char (n mod 36)].
Proof.
  intros Hn. assert (H36 : 2 <= 36) by lia.
  assert (H1 : 36 <= n) by lia.
  assert (H2 : 36 <= n / 36) by (apply N.div_le_lower_bound; lia).
  assert (H3 : 36 <= n / 36 / 36)
    by (rewrite N.Div0.div_div; apply N.div_le_lower_bound; lia).
  rewrite (digits_unfold 36 H36 n). destruct (N.ltb_spec n 36); [lia|].
  rewrite (digits_unfold 36 H36 (n / 36)). destruct (N.ltb_spec (n / 36) 36); [lia|].
  rewrite (digits_unfold 36 H36 (n / 36 / 36)).
  destruct (N.ltb_spec (n / 36 / 36) 36); [lia|].
  destruct (digits_last 36 H36 (n / 36 / 36 / 36)) as [pre ->].
  exists pre. rewrite !N.Div0.div_div. rewrite <- !app_assoc. reflexivity.
Qed.

Lemma slice_last4 (pre : jsstring) (a b c d : N) :
  slice (-4) None (pre ++ [a; b; c; d]) = [a; b; c; d].
Proof.
  unfold slice, slice_index. rewrite length_app. cbn [length].
  destruct (Z.ltb_spec (-4) 0); [|lia].
  replace (Z.max (Z.of_nat (length pre + 4) + -4) 0) with (Z.of_nat (length pre)) by lia.
  rewrite Nat2Z.id, drop_app_length.
  replace (Z.to_nat (Z.of_nat (length pre + 4) - Z.of_nat (length pre))) with 4%nat by lia.
  reflexivity.
Qed.

Lemma slice_length first last s :
  (0 <= first)%Z -> (0 <= last)%Z ->
  (Z.of_nat (length (slice first (Some last) s)) <= Z.max (last - first) 0)%Z.
Proof.
  intros Hfirst Hlast. unfold slice, slice_index. rewrite length_take, length_drop.
  destruct (Z.ltb_spec first 0); [lia|].
  destruct (Z.ltb_spec last 0); lia.
Qed.

Lemma uid_shape random36 now :
  (46656 <= now)%Z ->
  let n := Z.abs_N now in
  uid random36 now =
    slice 2 (Some 10%Z) random36
    ++ [digit_char (n / 46656 mod 36); digit_char (n / 1296 mod 36);
        digit_char (n / 36 mod 36); digit_char (n mod 36)].
Proof.
  intros Hnow n. subst n. unfold uid, Number_toString.
  destruct (Z.ltb_spec now 0); [lia|].
  destruct (digits36_last4 (Z.abs_N now)) as [pre ->]; [lia|].
  rewrite slice_last4. reflexivity.
Qed.

End uid_facts.

(** X12. An id is at most twelve characters: up to eight of the random text and
    the last four base-36 digits of the clock. So the clock enters only
    through its remainder modulo 36^4 = 1679616 milliseconds: with the same
    random text, two clocks (past the first 46656 ms of the epoch) that
    differ by a multiple of 1679616 give the same id. *)
Theorem uid_uses_clock_modulo (random36 : jsstring) (now now' : Z) :
  (46656 <= now)%Z -> (46656 <= now')%Z ->
  (now mod 1679616 = now' mod 1679616)%Z ->
  uid random36 now = uid random36 now' /\
  (length (uid random36 now) <= 12)%nat.
Proof.
  intros Hnow Hnow' Hmod.
  rewrite (uid_shape random36 now Hnow), (uid_shape random36 now' Hnow'). cbv zeta.
  assert (Hn : Z.abs_N now mod 1679616 = Z.abs_N now' mod 1679616).
  { apply N2Z.inj. rewrite !N2Z.inj_mod, !N2Z.inj_abs_N, !Z.abs_eq by lia. exact Hmod. }
  assert (Hdigit : forall a c, a <> 0 -> a * 36 * c = 1679616 ->
            Z.abs_N now / a mod 36 = Z.abs_N now' / a mod 36).
  { intros a c Ha Hac.
    rewrite <- (digit_of_remainder (Z.abs_N now) a 36 c),
            <- (digit_of_remainder (Z.abs_N now') a 36 c) by lia.
    rewrite Hac, Hn. reflexivity. }
  split.
  - rewrite (Hdigit 46656 1), (Hdigit 1296 36), (Hdigit 36 1296) by lia.
    pose proof (Hdigit 1 46656 ltac:(lia) ltac:(lia)) as H1. rewrite !N.div_1_r in H1.
    rewrite H1. reflexivity.
  - rewrite length_app. cbn [length].
    pose proof (slice_length 2 10 random36 ltac:(lia) ltac:(lia)). lia.
Qed.

Lemma uid_uses_clock_modulo_witness :
  (46656 <= 1756301520000)%Z /\ (46656 <= 1756303199616)%Z /\
  (1756301520000 mod 1679616 = 1756303199616 mod 1679616)%Z /\
  uid (js "0.4fzyo82mvyr") 1756301520000 = uid (js "0.4fzyo82mvyr") 1756303199616 /\
  (length (uid (js "0.4fzyo82mvyr") 1756301520000) <= 12)%nat.
Proof.
  assert (H1 : (46656 <= 1756301520000)%Z) by lia.
  assert (H2 : (46656 <= 1756303199616)%Z) by lia.
  assert (H3 : (1756301520000 mod 1679616 = 1756303199616 mod 1679616)%Z) by reflexivity.
  split; [exact H1|]. split; [exact H2|]. split; [exact H3|].
  apply uid_uses_clock_modulo; assumption.
Defined.

(** ** The exported file *)

















(** Two spaces per level, one element per line, [: ] after a key, and empty
    arrays and objects on one line. *)
Example JSON_stringify_space_layout :
  JSON_stringify_space 2 (JArr [JNum 1; JArr []; JObj [(js "a", JBool true)]])
  = js "[" ++ [10] ++ js "  1," ++ [10] ++ js "  []," ++ [10] ++ js "  {" ++ [10]
    ++ js "    " ++ [34; 97; 34] ++ js ": true" ++ [10] ++ js "  }" ++ [10] ++ js "]".
Proof. reflexivity. Qed.

